(** * Verification of the crtools filtered-median extension and its sorting layer

    Sources embedded here:
    - [src/src/ftools/sorting/sorting.c] : SWAP, sort3, sort4, sort9, sort25,
      sort27 (hybrid), sort27b, insertion_sort, sort_doubles;
    - [src/src/ftools/sorting.c]         : sort3, sort9, sort25, sort27 (pure);
    - [src/fmedian_ext.c]                : compare_int16, compute_median, fmedian.

    Array elements ([double] in the sorting code, [int16_t] in the filter) are
    modelled as [Z]: the sorting code only compares and moves them, and all
    int16 values are exactly representable.  Arrays are [list Z], read with
    [!!!] and written with [<[i:=x]>]. *)

From Stdlib Require Import ZArith QArith Qabs Lia Lqa FinFun.
From stdpp Require Import base list sorting gmap.

Open Scope Z_scope.

(* ------------------------------------------------------------------ *)
(** ** The SWAP macro and straight-line comparator networks *)

(** [SWAP(a, b)]:
<<
    double tmp_swap = (a);
    (a) = ((a) > (b)) ? (b) : (a);
    (b) = ((b) > tmp_swap) ? (b) : tmp_swap;
>>
    applied to [d[i]], [d[j]]. *)
Definition SWAP (i j : nat) (d : list Z) : list Z :=
  let tmp_swap := d !!! i in
  let d1 := <[i := if d !!! i >? d !!! j then d !!! j else d !!! i]> d in
  <[j := if d1 !!! j >? tmp_swap then d1 !!! j else tmp_swap]> d1.

(** A straight-line sequence of [SWAP(d[i], d[j])] statements. *)
Definition network := list (nat * nat).

Definition run_net (net : network) (d : list Z) : list Z :=
  fold_left (fun d '(i, j) => SWAP i j d) net d.

(** [f(&d[o])]: the same network applied to the sub-array starting at [o]. *)
Definition shift (o : nat) (net : network) : network :=
  map (fun '(i, j) => (o + i, o + j)%nat) net.

(* ------------------------------------------------------------------ *)
(** ** [insertion_sort] (sorting/sorting.c), also inlined in sort25/sort27 *)

(** The inner [while] loop.  [h] is the hole [j + 1] of the C code:
<<
    while (j >= 0 && values[j] > key) { values[j + 1] = values[j]; j--; }
    values[j + 1] = key;
>> *)
Fixpoint shift_down (d : list Z) (key : Z) (h : nat) : list Z :=
  match h with
  | O => <[0%nat := key]> d
  | S j => if d !!! j >? key then shift_down (<[h := d !!! j]> d) key j
           else <[h := key]> d
  end.

(** [for (int i = 1; i < count; i++) { double key = values[i]; int j = i - 1; ... }] *)
Definition insertion_sort (values : list Z) (count : nat) : list Z :=
  fold_left (fun d i => shift_down d (d !!! i) i) (seq 1 (count - 1)) values.

(** The libc [qsort] with a consistent three-way comparator ([compare_double],
    [compare_int16]) on a totally ordered element type: its output is the
    sorted permutation of its input, which is unique.  It is modelled by that
    result, computed by stdpp's merge sort. *)
Definition qsort (values : list Z) : list Z := merge_sort Z.le values.

(** The reference comparison sort the specification compares against. *)
Definition reference_sort (values : list Z) : list Z := merge_sort Z.le values.

(* ------------------------------------------------------------------ *)
(** ** src/src/ftools/sorting/sorting.c *)

Module Sorting.

Definition sort3_net : network := [(0,2); (0,1); (1,2)]%nat.
Definition sort3 (d : list Z) : list Z := run_net sort3_net d.

Definition sort4_net : network := [(0,2); (1,3); (0,1); (2,3); (1,2)]%nat.
Definition sort4 (d : list Z) : list Z := run_net sort4_net d.

Definition sort9_net : network :=
  [(0,1); (3,4); (6,7); (1,2); (4,5); (7,8); (0,1); (3,4); (6,7);
   (0,3); (3,6); (0,3);
   (1,4); (4,7); (1,4); (2,5); (5,8); (2,5); (1,3); (5,7); (2,6); (4,6);
   (2,4); (2,3); (5,6)]%nat.
Definition sort9 (d : list Z) : list Z := run_net sort9_net d.

(** Body of the first loop of sort25, for one group starting at [i]. *)
Definition sort25_group_net : network :=
  [(0,1); (3,4); (0,2); (1,2); (0,1); (2,3); (1,2); (3,4); (2,3)]%nat.

(** [for (int i = 0; i < 25; i += 5) { ... }] then the inlined insertion sort. *)
Definition sort25 (d : list Z) : list Z :=
  let d := run_net (concat (map (fun k => shift (5 * k) sort25_group_net) (seq 0 5))) d in
  insertion_sort d 25.

(** Hybrid sort27: nine sort3, three sort9, then the inlined insertion sort. *)
Definition sort27_stage12_net : network :=
  concat (map (fun k => shift (3 * k) sort3_net) (seq 0 9)) ++
  concat (map (fun k => shift (9 * k) sort9_net) (seq 0 3)).

Definition sort27 (d : list Z) : list Z :=
  insertion_sort (run_net sort27_stage12_net d) 27.

(** [sort27b]: the complete 147-comparator network, stage by stage. *)
Definition sort27b_net : network :=
  [(0,1); (2,3); (4,5); (6,7); (8,9); (10,11); (12,14); (15,16); (17,18);
   (19,20); (21,22); (23,24); (25,26);
   (0,2); (1,3); (4,6); (5,7); (8,10); (9,11); (12,13); (15,17); (16,18);
   (19,21); (20,22); (23,25); (24,26);
   (0,23); (1,24); (2,25); (3,26); (4,8); (5,9); (6,10); (7,11); (13,14);
   (15,19); (16,20); (17,21); (18,22);
   (0,4); (1,6); (2,19); (3,20); (5,13); (9,21); (11,14); (12,16); (17,23);
   (18,24); (22,26);
   (5,17); (6,16); (7,22); (9,25); (10,24); (12,15); (13,20); (14,26);
   (1,12); (4,15); (7,23); (10,19); (11,16); (13,18); (20,24); (22,25);
   (0,1); (6,12); (8,11); (9,15); (10,17); (14,24); (16,21); (18,19);
   (1,4); (2,8); (3,11); (12,15); (14,20); (16,22); (21,25);
   (2,5); (3,17); (8,13); (11,23); (21,22); (24,25);
   (1,2); (3,10); (5,6); (7,13); (11,15); (14,21); (18,23); (20,22);
   (4,5); (6,9); (7,8); (13,17); (14,16); (19,23); (22,24);
   (2,4); (3,6); (5,7); (8,12); (9,10); (11,13); (14,18); (15,17); (16,19);
   (21,23);
   (3,5); (6,8); (7,9); (10,12); (11,14); (13,16); (15,18); (17,19);
   (20,21); (22,23);
   (5,6); (8,11); (9,10); (12,14); (13,15); (17,18); (19,21);
   (4,5); (6,7); (8,9); (10,11); (12,13); (14,15); (16,17); (18,20);
   (21,22);
   (3,4); (5,6); (7,8); (9,10); (11,12); (13,14); (15,16); (17,18);
   (19,20)]%nat.
Definition sort27b (d : list Z) : list Z := run_net sort27b_net d.

(** [sort_doubles(values, count)], on the array [values] of length [count]. *)
Definition sort_doubles (values : list Z) (count : nat) : list Z :=
  if (count <=? 1)%nat then values
  else match count with
       | 2%nat => SWAP 0 1 values
       | 3%nat => sort3 values
       | 4%nat => sort4 values
       | 9%nat => sort9 values
       | 25%nat => sort25 values
       | 27%nat => sort27 values
       | _ => if (count <? 40)%nat then insertion_sort values count
              else qsort values
       end.

End Sorting.

(* ------------------------------------------------------------------ *)
(** ** src/src/ftools/sorting.c *)

Module FtoolsSorting.

Definition sort3_net : network := [(0,1); (1,2); (0,1)]%nat.
Definition sort3 (d : list Z) : list Z := run_net sort3_net d.

Definition sort9_net : network := Sorting.sort9_net.
Definition sort9 (d : list Z) : list Z := run_net sort9_net d.

(** Stage 3 of sort27: the fixed merge sequence. *)
Definition sort27_merge_net : network :=
  [(0,9); (1,10); (2,11); (3,12); (4,13); (5,14); (6,15); (7,16); (8,17);
   (9,18); (10,19); (11,20); (12,21); (13,22); (14,23); (15,24); (16,25); (17,26);
   (0,9); (1,10); (2,11); (3,12); (4,13); (5,14); (6,15); (7,16); (8,17);
   (1,9); (2,10); (3,11); (4,12); (5,13); (6,14); (7,15); (8,16);
   (10,18); (11,19); (12,20); (13,21); (14,22); (15,23); (16,24); (17,25);
   (2,9); (3,10); (4,11); (5,12); (6,13); (7,14); (8,15);
   (11,18); (12,19); (13,20); (14,21); (15,22); (16,23); (17,24);
   (3,9); (4,10); (5,11); (6,12); (7,13); (8,14);
   (12,18); (13,19); (14,20); (15,21); (16,22); (17,23);
   (4,9); (5,10); (6,11); (7,12); (8,13);
   (13,18); (14,19); (15,20); (16,21); (17,22);
   (5,9); (6,10); (7,11); (8,12);
   (14,18); (15,19); (16,20); (17,21);
   (6,9); (7,10); (8,11); (15,18); (16,19); (17,20);
   (7,9); (8,10); (16,18); (17,19);
   (8,9); (17,18)]%nat.

(** The pure 27-element network: nine sort3, three sort9, then the merge. *)
Definition sort27_net : network :=
  concat (map (fun k => shift (3 * k) sort3_net) (seq 0 9)) ++
  concat (map (fun k => shift (9 * k) sort9_net) (seq 0 3)) ++
  sort27_merge_net.
Definition sort27 (d : list Z) : list Z := run_net sort27_net d.

(** Body of the first loop of sort25, for one group starting at [i]. *)
Definition sort25_group_net : network :=
  [(0,1); (3,4); (0,2); (1,2); (0,1); (2,3); (1,2); (3,4); (2,3)]%nat.

(** [for (int i = 0; i < 25; i += 5) { ... }] then the inlined insertion sort. *)
Definition sort25 (d : list Z) : list Z :=
  let d := run_net (concat (map (fun k => shift (5 * k) sort25_group_net) (seq 0 5))) d in
  insertion_sort d 25.

End FtoolsSorting.

(* ------------------------------------------------------------------ *)
(** ** src/fmedian_ext.c *)

Module Fmedian.

(** C [int] arithmetic on an LP64 target: a 32-bit two's-complement value.
    A product that leaves the range is written with its wrap-around, as the
    compiled code computes it. *)
Definition wrap32 (z : Z) : Z := (z + 2^31) mod 2^32 - 2^31.

(** [size_t] arithmetic: unsigned 64-bit. *)
Definition wrap64u (z : Z) : Z := z mod 2^64.

Definition is_int16 (z : Z) : bool := (-32768 <=? z) && (z <=? 32767).
Definition is_int (z : Z) : bool := (-2^31 <=? z) && (z <=? 2^31 - 1).

(** [compare_int16]: [*(int16_t* )a - *(int16_t* )b], both operands promoted
    to [int].  Signed overflow would be undefined behaviour: [None]. *)
Definition compare_int16 (a b : Z) : option Z :=
  let r := a - b in if is_int r then Some r else None.

(** [compute_median(values, count)]: returns the array after the call (its
    first [count] entries sorted by [qsort]) and the result.  The result is
    a [double]; every value it takes here (an int16 or half the sum of two)
    is exact in binary64, so it is modelled in [Q]. *)
Definition compute_median (values : list Z) (count : nat) : list Z * Q :=
  if (count =? 0)%nat then (values, 0%Q)
  else
    let values := qsort (take count values) ++ drop count values in
    if Nat.even count
    then (values, (inject_Z (values !!! (count / 2 - 1)%nat + values !!! (count / 2)%nat) / 2)%Q)
    else (values, inject_Z (values !!! (count / 2)%nat)).

(** The median of a whole list, as [compute_median] computes it. *)
Definition median (l : list Z) : Q := snd (compute_median l (length l)).

(** The input array as the loops see it: its shape, its strides (in bytes)
    and its memory (byte offset from the data pointer to the int16 there). *)
Record grid := {
  g_dim0 : N; g_dim1 : N; g_stride0 : Z; g_stride1 : Z; g_mem : Z → Z }.

(** Reading [*(int16_t* )(input_data + ny*strides[0] + nx*strides[1])]; an
    address outside the array is undefined behaviour: [None]. *)
Definition in_get (g : grid) (ny nx : Z) : option Z :=
  if (0 <=? ny) && (ny <? Z.of_N (g_dim0 g)) && (0 <=? nx) && (nx <? Z.of_N (g_dim1 g))
  then Some (g_mem g (ny * g_stride0 g + nx * g_stride1 g)) else None.

(** [int height = (int)input_dims[0]; int width = (int)input_dims[1];] *)
Definition height (g : grid) : Z := wrap32 (Z.of_N (g_dim0 g)).
Definition width (g : grid) : Z := wrap32 (Z.of_N (g_dim1 g)).

(** [for (int v = lo; v <= hi; v++)]: the values taken by [v]. *)
Definition c_for (lo hi : Z) : list Z :=
  map (fun k => lo + Z.of_nat k) (seq 0 (Z.to_nat (hi - lo + 1))).

(** [fabs((double)(neighbor_value - center_value)) < threshold]. *)
Definition passes_threshold (threshold : Q) (neighbor_value center_value : Z) : bool :=
  negb (Qle_bool threshold (Qabs (inject_Z (neighbor_value - center_value)))).

Definition in_bounds (g : grid) (ny nx : Z) : bool :=
  (0 <=? ny) && (ny <? height g) && (0 <=? nx) && (nx <? width g).

(** One iteration of the [dx] loop: the bounds check, the read, the
    threshold test and [neighbors[count++] = neighbor_value] (a write past
    the end of the buffer is undefined behaviour: [None]). *)
Definition collect_step (g : grid) (threshold : Q) (y x center_value : Z)
    (st : option (list Z * nat)) (dy dx : Z) : option (list Z * nat) :=
  match st with
  | None => None
  | Some (neighbors, count) =>
      let ny := y + dy in
      let nx := x + dx in
      if in_bounds g ny nx then
        match in_get g ny nx with
        | None => None
        | Some neighbor_value =>
            if passes_threshold threshold neighbor_value center_value then
              if (count <? length neighbors)%nat
              then Some (<[count := neighbor_value]> neighbors, S count)
              else None
            else Some (neighbors, count)
        end
      else Some (neighbors, count)
  end.

(** The [dy]/[dx] loops for the pixel [(y, x)], from [count = 0]. *)
Definition collect (g : grid) (xsize ysize : Z) (threshold : Q) (y x center_value : Z)
    (neighbors : list Z) : option (list Z * nat) :=
  fold_left (fun st dy =>
      fold_left (fun st dx => collect_step g threshold y x center_value st dy dx)
        (c_for (- xsize) xsize) st)
    (c_for (- ysize) ysize) (Some (neighbors, 0%nat)).

(** The output memory is kept byte by byte: a [gmap Z Z] maps the byte
    offset from [output_data] to the byte (0..255) a store has written
    there; an offset absent from the map still holds what the array held
    before the call. *)

(** The IEEE 754 binary64 bit pattern of the [double] of value [q]: sign,
    biased exponent, 52-bit fraction.  It is exact for zero and for the
    normal numbers binary64 holds exactly, which covers every value the
    stores write (0.0, an int16, or half the sum of two int16). *)
Definition double_bits (q : Q) : Z :=
  if Qeq_bool q 0 then 0 else
  let sign := if Qle_bool 0 q then 0 else 1 in
  let n := Qnum (Qabs q) in
  let d := Zpos (Qden (Qabs q)) in
  let e0 := Z.log2 n - Z.log2 d in
  (* the exponent [e]: [2^e <= n/d < 2^(e+1)] *)
  let e := if n * 2 ^ Z.max 0 (- e0) <? d * 2 ^ Z.max 0 e0 then e0 - 1 else e0 in
  let frac := (n * 2 ^ Z.max 0 (52 - e)) / (d * 2 ^ Z.max 0 (e - 52)) - 2 ^ 52 in
  sign * 2 ^ 63 + (e + 1023) * 2 ^ 52 + frac.

(** The [n] bytes of [z], least significant first (a little-endian target). *)
Definition le_bytes (n : nat) (z : Z) : list Z :=
  map (fun i => Z.land (Z.shiftr z (8 * Z.of_nat i)) 255) (seq 0 n).

Definition double_bytes (q : Q) : list Z := le_bytes 8 (double_bits q).

(** [*(double* )(((char* )output_data) + a) = v]: the eight bytes of [v] are
    written at the offsets [a .. a + 7]. *)
Definition store_double (a : Z) (v : Q) (mem : gmap Z Z) : gmap Z Z :=
  fold_left (fun mem i => <[a + Z.of_nat i := double_bytes v !!! i]> mem) (seq 0 8) mem.

(** The eight bytes a [double] load at the offset [a] reads ([None] for a
    byte the call has not written and the map does not record). *)
Definition load_bytes (mem : gmap Z Z) (a : Z) : list (option Z) :=
  map (fun i => mem !! (a + Z.of_nat i)) (seq 0 8).

(** The body of the pixel loops: center value, collection, median, store
    at [output_data + y*output_strides[0] + x*output_strides[1]]. *)
Definition process_pixel (g : grid) (os0 os1 : Z) (xsize ysize : Z) (threshold : Q)
    (st : option (list Z * gmap Z Z)) (y x : Z) : option (list Z * gmap Z Z) :=
  match st with
  | None => None
  | Some (neighbors, out) =>
      match in_get g y x with
      | None => None
      | Some center_value =>
          match collect g xsize ysize threshold y x center_value neighbors with
          | None => None
          | Some (neighbors, count) =>
              let '(neighbors, median_value) := compute_median neighbors count in
              Some (neighbors, store_double (y * os0 + x * os1) median_value out)
          end
      end
  end.

Definition pixel_loop (g : grid) (os0 os1 : Z) (xsize ysize : Z) (threshold : Q)
    (neighbors : list Z) (out : gmap Z Z) : option (list Z * gmap Z Z) :=
  fold_left (fun st y =>
      fold_left (fun st x => process_pixel g os0 os1 xsize ysize threshold st y x)
        (c_for 0 (width g - 1)) st)
    (c_for 0 (height g - 1)) (Some (neighbors, out)).

(** Array descriptors as the checks of [fmedian] see them. *)
Inductive npy_type := NPY_INT16 | NPY_FLOAT64 | NPY_OTHER.

Record ndarray := { nd_shape : list N; nd_type : npy_type; nd_strides : list Z }.

Inductive py_error := OverflowError | ValueError | TypeError | MemoryError.

Inductive outcome :=
  | Ret_None                 (* Py_RETURN_NONE *)
  | Raise (e : py_error)     (* return NULL with an exception set *)
  | Undefined.               (* an out-of-bounds access *)

(** [int max_neighbors = (2 * xsize + 1) * (2 * ysize + 1);] *)
Definition max_neighbors (xsize ysize : Z) : Z := wrap32 ((2 * xsize + 1) * (2 * ysize + 1)).

(** The argument of [malloc]: [max_neighbors * sizeof(int16_t)] in [size_t]. *)
Definition malloc_request (xsize ysize : Z) : Z := wrap64u (max_neighbors xsize ysize * 2).

(** The input array seen through its data pointer and strides. *)
Definition input_grid (a : ndarray) (input_mem : Z → Z) : grid :=
  {| g_dim0 := nd_shape a !!! 0%nat; g_dim1 := nd_shape a !!! 1%nat;
     g_stride0 := nd_strides a !!! 0%nat; g_stride1 := nd_strides a !!! 1%nat;
     g_mem := input_mem |}.

(** [fmedian(input_array, output_array, xsize, ysize, threshold)].
    [malloc_ok n] tells whether [malloc(n)] returns a block; the block holds
    [n / 2] int16 slots whose initial contents are never read. *)
Definition fmedian (input_array output_array : ndarray) (input_mem : Z → Z)
    (output_mem : gmap Z Z) (xsize ysize : Z) (threshold : Q)
    (malloc_ok : Z → bool) : outcome * gmap Z Z :=
  if negb (is_int16 xsize && is_int16 ysize) then (Raise OverflowError, output_mem)
  else if negb ((length (nd_shape input_array) =? 2)%nat &&
                (length (nd_shape output_array) =? 2)%nat)
  then (Raise ValueError, output_mem)
  else
    let input_dims := nd_shape input_array in
    let output_dims := nd_shape output_array in
    if negb (N.eqb (input_dims !!! 0%nat) (output_dims !!! 0%nat) &&
             N.eqb (input_dims !!! 1%nat) (output_dims !!! 1%nat))
    then (Raise ValueError, output_mem)
    else
      match nd_type input_array, nd_type output_array with
      | NPY_INT16, NPY_FLOAT64 =>
          let bytes := malloc_request xsize ysize in
          if negb (malloc_ok bytes) then (Raise MemoryError, output_mem)
          else
            let g := input_grid input_array input_mem in
            let neighbors := repeat 0 (Z.to_nat (bytes / 2)) in
            match pixel_loop g (nd_strides output_array !!! 0%nat)
                    (nd_strides output_array !!! 1%nat) xsize ysize threshold
                    neighbors output_mem with
            | Some (_, out) => (Ret_None, out)
            | None => (Undefined, output_mem)
            end
      | NPY_INT16, _ => (Raise TypeError, output_mem)
      | _, _ => (Raise TypeError, output_mem)
      end.

(** The value of the input cell [(ny, nx)]. *)
Definition cell_value (g : grid) (ny nx : Z) : Z :=
  g_mem g (ny * g_stride0 g + nx * g_stride1 g).

(** The window offsets [(dy, dx)] in the order the loops visit them. *)
Definition offsets (xsize ysize : Z) : list (Z * Z) :=
  list_prod (c_for (- ysize) ysize) (c_for (- xsize) xsize).

(** The inclusion test of the specification for the candidate at [(dy, dx)]. *)
Definition admissible (g : grid) (threshold : Q) (y x center_value : Z)
    (o : Z * Z) : bool :=
  let '(dy, dx) := o in
  in_bounds g (y + dy) (x + dx) &&
  passes_threshold threshold (cell_value g (y + dy) (x + dx)) center_value.

(** The admitted-neighbor list of the pixel [(y, x)], in loop order. *)
Definition neighbor_list (g : grid) (xsize ysize : Z) (threshold : Q) (y x : Z) : list Z :=
  map (fun '(dy, dx) => cell_value g (y + dy) (x + dx))
    (List.filter (admissible g threshold y x (cell_value g y x)) (offsets xsize ysize)).

(** The output address of the cell [(y, x)]: [y * os[0] + x * os[1]]. *)
Definition cell_address (os0 os1 y x : Z) : Z := y * os0 + x * os1.

End Fmedian.

(* ------------------------------------------------------------------ *)
(** ** Booleans checks used by the proofs *)

(** Non-decreasing order, as the test harnesses' [is_sorted] checks it. *)
Fixpoint sortedb (l : list Z) : bool :=
  match l with
  | x :: ((y :: _) as t) => (x <=? y) && sortedb t
  | _ => true
  end.

(** All arrays of length [n] over {0, 1}. *)
Fixpoint bits (n : nat) : list (list Z) :=
  match n with
  | O => [[]]
  | S n => map (cons 0) (bits n) ++ map (cons 1) (bits n)
  end.

(** Every comparator of [net] addresses an array of length [n]. *)
Definition net_in_range (net : network) (n : nat) : bool :=
  forallb (fun '(i, j) => (i <? n)%nat && (j <? n)%nat) net.

(** [net] sorts every 0/1 array of length [n]. *)
Definition net_sorts01 (net : network) (n : nat) : bool :=
  forallb (fun b => sortedb (run_net net b)) (bits n).

(** Threshold map used by the 0-1 principle. *)
Definition thr (c x : Z) : Z := if c <=? x then 1 else 0.

Definition monotone (f : Z → Z) : Prop := ∀ x y, x ≤ y → f x ≤ f y.

(** The inner loop, read on the reversed prefix: [key] moves past every
    element greater than it, scanning from the right. *)
Fixpoint ins_rev (key : Z) (ra : list Z) : list Z :=
  match ra with
  | [] => [key]
  | y :: ra' => if y >? key then y :: ins_rev key ra' else key :: y :: ra'
  end.

Definition ins_back (key : Z) (a : list Z) : list Z :=
  reverse (ins_rev key (reverse a)).

(** The identity permutation of 0..26 with the entries at positions 0 and 18
    exchanged. *)
Definition sort27_failing_input : list Z :=
  [18; 1; 2; 3; 4; 5; 6; 7; 8; 9; 10; 11; 12; 13; 14; 15; 16; 17; 0;
   19; 20; 21; 22; 23; 24; 25; 26].

(** Bit-sliced evaluation of a network on many 0/1 arrays at once: wire [k]
    holds an integer whose bit [l] is [d[k]] of the [l]-th array; on 0/1
    values [SWAP] computes (and, or). *)
Definition SWAP_sliced (i j : nat) (s : list Z) : list Z :=
  let a := s !!! i in
  let b := s !!! j in
  <[j := Z.lor a b]> (<[i := Z.land a b]> s).

Definition run_sliced (net : network) (s : list Z) : list Z :=
  fold_left (fun s '(i, j) => SWAP_sliced i j s) net s.

(** Every lane is non-decreasing: no bit set in a wire is clear in the next. *)
Fixpoint sliced_sorted (s : list Z) : bool :=
  match s with
  | a :: ((b :: _) as t) => (Z.ldiff a b =? 0) && sliced_sorted t
  | _ => true
  end.

Definition bit_at (l : nat) (z : Z) : Z := if Z.testbit z (Z.of_nat l) then 1 else 0.
Arguments bit_at : simpl never.

(** The [l]-th 0/1 array held by the wires. *)
Definition lane (l : nat) (s : list Z) : list Z := bit_at l <$> s.

(** Packs the arrays [V], each of length [n], into [n] wires: [V !!! l] in lane [l]. *)
Fixpoint slices (V : list (list Z)) (n : nat) : list Z :=
  match V with
  | [] => replicate n 0
  | v :: V => zip_with (fun b z => 2 * z + b) v (slices V n)
  end.

(** A 0/1 array repeated in every lane below the mask [m]. *)
Definition expand (m : Z) (o : list Z) : list Z := (fun b => if b =? 0 then 0 else m) <$> o.

(** Every concatenation of one array from each list of [Ss]. *)
Fixpoint cat_all (Ss : list (list (list Z))) : list (list Z) :=
  match Ss with
  | [] => [[]]
  | vs :: Ss => flat_map (fun v => map (fun w => v ++ w) (cat_all Ss)) vs
  end.

Definition no_self_loops (net : network) : bool :=
  forallb (fun '(i, j) => negb (i =? j)%nat) net.

(** The block [d[o] .. d[o+n-1]] of an array. *)
Definition block (o n : nat) (d : list Z) : list Z := take n (drop o d).

Definition inside (o n i : nat) : bool := (o <=? i)%nat && (i <? o + n)%nat.
Arguments inside : simpl never.

(** Every comparator has both wires inside the block or both outside. *)
Definition respects_block (o n : nat) (net : network) : bool :=
  forallb (fun '(i, j) => Bool.eqb (inside o n i) (inside o n j)) net.

(** The comparators inside the block, renumbered from 0. *)
Definition local (o n : nat) (net : network) : network :=
  map (fun '(i, j) => (i - o, j - o)%nat) (List.filter (fun '(i, j) => inside o n i) net).

(** The first two stages of sort27b (26 comparators) act separately on the
    blocks 0-3, 4-7, 8-11, 12-14, 15-18, 19-22 and 23-26; on 0/1 inputs they
    leave each block of four in one of six patterns and the block of three in
    one of five.  The remaining 121 comparators are checked on every
    combination: blocks 0-11 in 216 lanes, blocks 12-26 in 1080 cases. *)
Definition sort27b_prefix : network := take 26 Sorting.sort27b_net.
Definition sort27b_rest : network := drop 26 Sorting.sort27b_net.

Definition block4_net : network := [(0,1); (2,3); (0,2); (1,3)]%nat.
Definition block3_net : network := [(0,2); (0,1)]%nat.

Definition block4_out : list (list Z) :=
  [[0;0;0;0]; [0;0;0;1]; [0;0;1;1]; [0;1;0;1]; [0;1;1;1]; [1;1;1;1]].
Definition block3_out : list (list Z) := [[0;0;0]; [0;0;1]; [0;1;0]; [0;1;1]; [1;1;1]].

Definition sort27b_lanes : list (list Z) := cat_all [block4_out; block4_out; block4_out].
Definition sort27b_outer : list (list Z) :=
  cat_all [block3_out; block4_out; block4_out; block4_out].

Module FmedianTests.
Import Fmedian.
Definition g3 : grid := {| g_dim0 := 3; g_dim1 := 3; g_stride0 := 6; g_stride1 := 2;
  g_mem := fun a => if a =? 8 then 50 else 10 |}.


(** A 2^31 × 1 call: [(int)input_dims[0]] is [-2^31]. *)
Definition in_tall : ndarray :=
  {| nd_shape := [2^31; 1]%N; nd_type := NPY_INT16; nd_strides := [2; 2] |}.
Definition out_tall : ndarray :=
  {| nd_shape := [2^31; 1]%N; nd_type := NPY_FLOAT64; nd_strides := [8; 8] |}.

(** A 1 × 1 call. *)
Definition in1 : ndarray := {| nd_shape := [1; 1]%N; nd_type := NPY_INT16; nd_strides := [2; 2] |}.
Definition out1 : ndarray :=
  {| nd_shape := [1; 1]%N; nd_type := NPY_FLOAT64; nd_strides := [8; 8] |}.

(** A three-dimensional input. *)
Definition in3d : ndarray :=
  {| nd_shape := [1; 1; 1]%N; nd_type := NPY_INT16; nd_strides := [2; 2; 2] |}.
End FmedianTests.

Example sort9_ex : Sorting.sort9 [5;3;8;1;9;2;7;4;6] = [1;2;3;4;5;6;7;8;9].
Proof. vm_compute. reflexivity. Qed.
Example isort_ex : insertion_sort [5;3;8;1;9;2] 6 = [1;2;3;5;8;9].
Proof. vm_compute. reflexivity. Qed.
Example sort25_ex : Sorting.sort25 (rev (map Z.of_nat (seq 0 25))) = map Z.of_nat (seq 0 25).
Proof. vm_compute. reflexivity. Qed.

Example spec_threshold_example :
  (λ '(_, out), Fmedian.load_bytes out 32) <$>
    Fmedian.pixel_loop FmedianTests.g3 24 8 1 1 5 (repeat 0 9) ∅
  = Some (Some <$> Fmedian.double_bytes 50).
Proof. vm_compute. reflexivity. Qed.
Example median_examples :
  Fmedian.median [1;3;2] = 2%Q ∧ Qeq (Fmedian.median [1;2;3;4]) (5 # 2) ∧ Fmedian.median [] = 0%Q.
Proof. vm_compute. auto. Qed.

(* ------------------------------------------------------------------ *)
(** ** SWAP permutes its array *)

Section SwapFacts.

Lemma count_insert (l : list Z) (i : nat) (v x : Z) :
  (i < length l)%nat →
  (count_occ Z.eq_dec (<[i:=v]> l) x + (if Z.eq_dec (l !!! i) x then 1 else 0)
   = count_occ Z.eq_dec l x + (if Z.eq_dec v x then 1 else 0))%nat.
Proof.
  revert i. induction l as [|a l IH]; intros [|i] Hi; simpl in *; [lia|lia| |].
  - repeat destruct Z.eq_dec; lia.
  - specialize (IH i ltac:(lia)). repeat destruct Z.eq_dec; lia.
Qed.

Lemma SWAP_length i j d : length (SWAP i j d) = length d.
Proof. unfold SWAP. by rewrite !length_insert. Qed.

Lemma SWAP_count i j d x :
  (i < length d)%nat → (j < length d)%nat →
  count_occ Z.eq_dec (SWAP i j d) x = count_occ Z.eq_dec d x.
Proof.
  intros Hi Hj. unfold SWAP. cbv zeta.
  remember (d !!! i) as a eqn:Ha. remember (d !!! j) as b eqn:Hb.
  remember (if a >? b then b else a) as v1 eqn:Hv1.
  pose proof (count_insert d i v1 x Hi) as C1. rewrite <- Ha in C1.
  assert (E : <[i:=v1]> d !!! j = if decide (i = j) then v1 else b).
  { rewrite list_lookup_total_insert. subst b.
    repeat case_decide; subst; try reflexivity; lia. }
  rewrite E.
  pose proof (count_insert (<[i:=v1]> d) j
    (if (if decide (i = j) then v1 else b) >? a
     then (if decide (i = j) then v1 else b) else a) x) as C2.
  rewrite length_insert in C2. specialize (C2 Hj). rewrite E in C2.
  destruct (decide (i = j)) as [->|Hne].
  - assert (b = a) as -> by congruence.
    assert (Ev : v1 = a) by (subst v1; destruct (a >? a); reflexivity).
    rewrite Ev in *. destruct (a >? a); repeat destruct Z.eq_dec; lia.
  - subst v1. destruct (Z.gtb_spec a b), (Z.gtb_spec b a); try lia;
      repeat destruct Z.eq_dec; subst; lia.
Qed.

Lemma SWAP_perm i j d :
  (i < length d)%nat → (j < length d)%nat → SWAP i j d ≡ₚ d.
Proof.
  intros Hi Hj. apply (Permutation_count_occ Z.eq_dec). intros x.
  by apply SWAP_count.
Qed.

End SwapFacts.

(* ------------------------------------------------------------------ *)
(** ** Networks: permutation, commutation with monotone maps, 0-1 principle *)

Section NetworkFacts.

Lemma monotone_min f x y : monotone f →
  f (if x >? y then y else x) = if f x >? f y then f y else f x.
Proof.
  intros Hf. destruct (Z.gtb_spec x y), (Z.gtb_spec (f x) (f y)); try done.
  - pose proof (Hf y x ltac:(lia)). lia.
  - pose proof (Hf x y H). lia.
Qed.

Lemma monotone_max f x y : monotone f →
  f (if x >? y then x else y) = if f x >? f y then f x else f y.
Proof.
  intros Hf. destruct (Z.gtb_spec x y), (Z.gtb_spec (f x) (f y)); try done.
  - pose proof (Hf y x ltac:(lia)). lia.
  - pose proof (Hf x y H). lia.
Qed.

Lemma SWAP_fmap f i j d : monotone f →
  (i < length d)%nat → (j < length d)%nat →
  f <$> SWAP i j d = SWAP i j (f <$> d).
Proof.
  intros Hf Hi Hj. unfold SWAP. cbv zeta.
  set (v1 := if d !!! i >? d !!! j then d !!! j else d !!! i).
  set (d1 := <[i:=v1]> d).
  rewrite list_fmap_insert, (monotone_max f _ _ Hf).
  rewrite <- (list_lookup_total_fmap f d1 j) by (unfold d1; rewrite length_insert; done).
  assert (E : f <$> d1 = <[i:=if (f <$> d) !!! i >? (f <$> d) !!! j
                             then (f <$> d) !!! j else (f <$> d) !!! i]> (f <$> d)).
  { unfold d1, v1. rewrite list_fmap_insert, (monotone_min f _ _ Hf).
    by rewrite !(list_lookup_total_fmap f d). }
  rewrite E. by rewrite (list_lookup_total_fmap f d).
Qed.

Lemma run_net_length net d : length (run_net net d) = length d.
Proof.
  unfold run_net. revert d. induction net as [|[i j] net IH]; intros d; simpl.
  - done.
  - by rewrite IH, SWAP_length.
Qed.

Lemma run_net_perm net d :
  net_in_range net (length d) = true → run_net net d ≡ₚ d.
Proof.
  unfold run_net. revert d. induction net as [|[i j] net IH]; intros d Hr; simpl in *.
  - done.
  - apply andb_prop in Hr as [Hij Hr]. apply andb_prop in Hij as [Hi Hj].
    apply Nat.ltb_lt in Hi, Hj.
    rewrite IH by (by rewrite SWAP_length). by apply SWAP_perm.
Qed.

Lemma run_net_fmap f net d : monotone f →
  net_in_range net (length d) = true →
  f <$> run_net net d = run_net net (f <$> d).
Proof.
  unfold run_net. intros Hf. revert d.
  induction net as [|[i j] net IH]; intros d Hr; simpl in *.
  - done.
  - apply andb_prop in Hr as [Hij Hr]. apply andb_prop in Hij as [Hi Hj].
    apply Nat.ltb_lt in Hi, Hj.
    rewrite IH by (by rewrite SWAP_length). by rewrite SWAP_fmap.
Qed.

Lemma thr_monotone c : monotone (thr c).
Proof.
  intros x y Hxy. unfold thr.
  destruct (Z.leb_spec c x), (Z.leb_spec c y); lia.
Qed.

Lemma sortedb_tail x l : sortedb (x :: l) = true → sortedb l = true.
Proof. destruct l; simpl; [done|]. by intros [_ ?]%andb_prop. Qed.

(** The 0-1 principle, in the form used here: a list all of whose
    threshold images are sorted is sorted. *)
Lemma zero_one_principle l :
  (∀ c, sortedb (thr c <$> l) = true) → sortedb l = true.
Proof.
  induction l as [|x [|y t] IH]; intros H; [done|done|].
  simpl. apply andb_true_intro. split.
  - specialize (H x). simpl in H. unfold thr at 1 2 in H.
    rewrite Z.leb_refl in H.
    destruct (Z.leb_spec x y); [done|]. simpl in H. done.
  - apply IH. intros c. apply (sortedb_tail (thr c x)). apply H.
Qed.

Lemma bits_complete l :
  Forall (λ x, x = 0 ∨ x = 1) l → In l (bits (length l)).
Proof.
  induction l as [|x l IH]; intros H; simpl; [by left|].
  apply Forall_cons in H as [[-> | ->] Hl]; apply in_or_app;
    [left | right]; apply in_map; auto.
Qed.

Lemma thr_01 c l : Forall (λ x, x = 0 ∨ x = 1) (thr c <$> l).
Proof.
  apply Forall_fmap, Forall_forall. intros x _. unfold thr; simpl.
  destruct (c <=? x); auto.
Qed.

(** A network that is in range and sorts all 0/1 arrays of length [n]
    sorts every array of length [n]. *)
Lemma network_sorts net d :
  net_in_range net (length d) = true →
  net_sorts01 net (length d) = true →
  sortedb (run_net net d) = true.
Proof.
  intros Hr H01. apply zero_one_principle. intros c.
  rewrite run_net_fmap by (done || apply thr_monotone).
  unfold net_sorts01 in H01. rewrite forallb_forall in H01.
  apply H01. rewrite <- (length_fmap (thr c) d). apply bits_complete, thr_01.
Qed.

End NetworkFacts.

(* ------------------------------------------------------------------ *)
(** ** Sortedness and the reference sort *)

Section SortedFacts.

Lemma sortedb_Sorted l : sortedb l = true ↔ Sorted Z.le l.
Proof.
  induction l as [|x [|y t] IH]; simpl.
  - split; auto.
  - split; auto.
  - rewrite andb_true_iff, Z.leb_le, IH. split.
    + intros [Hxy Ht]. constructor; [done|]. by constructor.
    + intros Hs. inversion Hs as [|? ? Ht Hhd]; subst.
      inversion Hhd; subst. done.
Qed.

Lemma reference_sort_perm l : reference_sort l ≡ₚ l.
Proof. apply merge_sort_Permutation. Qed.

Lemma reference_sort_sorted l : Sorted Z.le (reference_sort l).
Proof. apply (Sorted_merge_sort Z.le). Qed.

(** A sorted permutation of [l] is [reference_sort l]. *)
Lemma sorted_perm_is_reference l l' :
  Sorted Z.le l' → l' ≡ₚ l → l' = reference_sort l.
Proof.
  intros Hs Hp. apply (Sorted_unique Z.le); [done|apply reference_sort_sorted|].
  by rewrite reference_sort_perm.
Qed.

Lemma network_is_reference net d :
  net_in_range net (length d) = true →
  net_sorts01 net (length d) = true →
  run_net net d = reference_sort d.
Proof.
  intros Hr H01. apply sorted_perm_is_reference.
  - apply sortedb_Sorted, network_sorts; done.
  - by apply run_net_perm.
Qed.

Lemma qsort_is_reference l : qsort l = reference_sort l.
Proof. reflexivity. Qed.

End SortedFacts.

(* ------------------------------------------------------------------ *)
(** ** The insertion loop *)

Section InsertionFacts.

Lemma shift_down_rev key ra x r :
  shift_down (reverse ra ++ x :: r) key (length ra) = reverse (ins_rev key ra) ++ r.
Proof.
  revert x r. induction ra as [|y ra IH]; intros x r; simpl.
  - done.
  - rewrite reverse_cons, <- app_assoc. simpl.
    rewrite list_lookup_total_middle by (by rewrite length_reverse).
    destruct (y >? key).
    + rewrite (insert_app_r_alt (reverse ra)) by (rewrite length_reverse; lia).
      rewrite length_reverse, Nat.sub_succ_l, Nat.sub_diag by lia. simpl.
      rewrite IH, reverse_cons, <- app_assoc. done.
    + rewrite (insert_app_r_alt (reverse ra)) by (rewrite length_reverse; lia).
      rewrite length_reverse, Nat.sub_succ_l, Nat.sub_diag by lia. simpl.
      rewrite !reverse_cons, <- !app_assoc. done.
Qed.

Lemma shift_down_app key a x r :
  shift_down (a ++ x :: r) key (length a) = ins_back key a ++ r.
Proof.
  unfold ins_back. rewrite <- (reverse_involutive a) at 1.
  rewrite <- (length_reverse a). apply shift_down_rev.
Qed.

Lemma ins_rev_perm key ra : ins_rev key ra ≡ₚ key :: ra.
Proof.
  induction ra as [|y ra IH]; simpl; [done|].
  destruct (y >? key); [|done]. rewrite IH. constructor.
Qed.

Lemma ins_back_perm key a : ins_back key a ≡ₚ key :: a.
Proof.
  unfold ins_back. rewrite reverse_Permutation, ins_rev_perm.
  by rewrite reverse_Permutation.
Qed.

Lemma ins_rev_HdRel key y ra :
  HdRel (flip Z.le) y ra → key ≤ y → HdRel (flip Z.le) y (ins_rev key ra).
Proof.
  destruct ra as [|z ra]; simpl; intros Hd Hk.
  - constructor. unfold flip. lia.
  - destruct (z >? key); constructor; unfold flip; [|lia].
    by inversion Hd.
Qed.

Lemma ins_rev_sorted key ra :
  Sorted (flip Z.le) ra → Sorted (flip Z.le) (ins_rev key ra).
Proof.
  induction ra as [|y ra IH]; intros Hs; simpl.
  - by repeat constructor.
  - inversion Hs as [|? ? Hs' Hd]; subst.
    destruct (Z.gtb_spec y key).
    + constructor; [by apply IH|]. apply ins_rev_HdRel; [done|lia].
    + constructor; [done|]. constructor. unfold flip. lia.
Qed.

Lemma ins_back_sorted key a : Sorted Z.le a → Sorted Z.le (ins_back key a).
Proof.
  intros Hs. unfold ins_back.
  apply (Sorted_reverse (flip Z.le)), ins_rev_sorted, Sorted_reverse, Hs.
Qed.

Lemma insertion_loop m k s r :
  length s = k → (m ≤ length r)%nat → Sorted Z.le s →
  ∃ s', fold_left (fun d i => shift_down d (d !!! i) i) (seq k m) (s ++ r)
          = s' ++ drop m r ∧ Sorted Z.le s' ∧ s' ≡ₚ s ++ take m r.
Proof.
  revert k s r. induction m as [|m IH]; intros k s r Hk Hm Hs; simpl.
  - exists s. rewrite drop_0, take_0, app_nil_r. done.
  - destruct r as [|x r]; simpl in Hm; [lia|].
    rewrite list_lookup_total_middle by done.
    rewrite <- Hk, shift_down_app, Hk.
    destruct (IH (S k) (ins_back x s) r) as (s' & Heq & Hs' & Hp).
    + rewrite (Permutation_length (ins_back_perm x s)). simpl. lia.
    + lia.
    + by apply ins_back_sorted.
    + exists s'. split; [by rewrite Heq|]. split; [done|].
      rewrite Hp, ins_back_perm. simpl. by rewrite Permutation_middle.
Qed.

Lemma insertion_sort_correct values :
  Sorted Z.le (insertion_sort values (length values)) ∧
  insertion_sort values (length values) ≡ₚ values.
Proof.
  unfold insertion_sort. destruct values as [|v0 r]; simpl; [done|].
  rewrite Nat.sub_0_r.
  destruct (insertion_loop (length r) 1 [v0] r) as (s' & Heq & Hs & Hp);
    [done|done|by repeat constructor|].
  change (v0 :: r) with ([v0] ++ r). rewrite Heq, drop_all, app_nil_r.
  split; [done|]. by rewrite Hp, take_ge.
Qed.

Lemma insertion_sort_is_reference values :
  insertion_sort values (length values) = reference_sort values.
Proof.
  destruct (insertion_sort_correct values). by apply sorted_perm_is_reference.
Qed.

End InsertionFacts.

(* ------------------------------------------------------------------ *)
(** ** The fixed networks, checked on all 0/1 inputs *)

Section NetworkChecks.

Lemma perm_reference l l' : l ≡ₚ l' → reference_sort l = reference_sort l'.
Proof.
  intros Hp. apply sorted_perm_is_reference; [apply reference_sort_sorted|].
  by rewrite reference_sort_perm.
Qed.

Lemma Sorting_sort3_ok d : length d = 3%nat → Sorting.sort3 d = reference_sort d.
Proof. intros Hl. apply network_is_reference; rewrite Hl; vm_compute; done. Qed.

Lemma Sorting_sort4_ok d : length d = 4%nat → Sorting.sort4 d = reference_sort d.
Proof. intros Hl. apply network_is_reference; rewrite Hl; vm_compute; done. Qed.

Lemma Sorting_sort9_ok d : length d = 9%nat → Sorting.sort9 d = reference_sort d.
Proof. intros Hl. apply network_is_reference; rewrite Hl; vm_compute; done. Qed.

Lemma SWAP01_ok d : length d = 2%nat → SWAP 0 1 d = reference_sort d.
Proof.
  intros Hl. apply (network_is_reference [(0,1)%nat]); rewrite Hl; vm_compute; done.
Qed.

Lemma Ftools_sort3_ok d : length d = 3%nat → FtoolsSorting.sort3 d = reference_sort d.
Proof. intros Hl. apply network_is_reference; rewrite Hl; vm_compute; done. Qed.

Lemma Ftools_sort9_ok d : length d = 9%nat → FtoolsSorting.sort9 d = reference_sort d.
Proof. intros Hl. apply network_is_reference; rewrite Hl; vm_compute; done. Qed.

(** A pre-pass network followed by the insertion loop over the whole array
    (the shape of sort25 and of the hybrid sort27). *)
Lemma net_then_insertion net d :
  net_in_range net (length d) = true →
  insertion_sort (run_net net d) (length d) = reference_sort d.
Proof.
  intros Hr. rewrite <- (run_net_length net d), insertion_sort_is_reference.
  apply perm_reference, run_net_perm, Hr.
Qed.

Lemma Sorting_sort25_ok d : length d = 25%nat → Sorting.sort25 d = reference_sort d.
Proof.
  intros Hl. unfold Sorting.sort25. cbv zeta. rewrite <- Hl.
  apply net_then_insertion. rewrite Hl. vm_compute. done.
Qed.

Lemma Sorting_sort27_ok d : length d = 27%nat → Sorting.sort27 d = reference_sort d.
Proof.
  intros Hl. unfold Sorting.sort27. rewrite <- Hl.
  apply net_then_insertion. rewrite Hl. vm_compute. done.
Qed.

End NetworkChecks.

(* ------------------------------------------------------------------ *)
(** ** sort27b: the first two stages blockwise, the rest by a bit-sliced 0/1 check *)

Section SlicedFacts.

Local Abbreviation bin x := (x = 0 ∨ x = 1).

Lemma run_net_app n1 n2 d : run_net (n1 ++ n2) d = run_net n2 (run_net n1 d).
Proof. unfold run_net. apply fold_left_app. Qed.

Lemma SWAP_sliced_length i j s : length (SWAP_sliced i j s) = length s.
Proof. unfold SWAP_sliced. by rewrite !length_insert. Qed.

(** On each lane, a sliced comparator is [SWAP]. *)
Lemma SWAP_sliced_lane l i j s : i ≠ j → (i < length s)%nat → (j < length s)%nat →
  lane l (SWAP_sliced i j s) = SWAP i j (lane l s).
Proof.
  intros Hij Hi Hj. unfold SWAP_sliced, SWAP, lane. cbv zeta.
  rewrite !list_fmap_insert.
  rewrite (list_lookup_total_insert_ne _ i j) by done.
  rewrite !(list_lookup_total_fmap (bit_at l) s) by done.
  unfold bit_at. rewrite Z.lor_spec, Z.land_spec.
  destruct (Z.testbit (s !!! i) _), (Z.testbit (s !!! j) _); reflexivity.
Qed.

Lemma run_sliced_lane l net s :
  no_self_loops net = true → net_in_range net (length s) = true →
  lane l (run_sliced net s) = run_net net (lane l s).
Proof.
  unfold run_sliced, run_net. revert s.
  induction net as [|[i j] net IH]; intros s Hn Hr; simpl in *; [done|].
  apply andb_prop in Hn as [Hij Hn]. apply andb_prop in Hr as [Hij' Hr].
  apply andb_prop in Hij' as [Hi Hj]. apply Nat.ltb_lt in Hi, Hj.
  apply negb_true_iff, Nat.eqb_neq in Hij.
  rewrite IH by (by rewrite ?SWAP_sliced_length).
  by rewrite SWAP_sliced_lane.
Qed.

Lemma sliced_sorted_lane l s : sliced_sorted s = true → sortedb (lane l s) = true.
Proof.
  unfold lane. induction s as [|a [|b t] IH]; intros H; [done|done|].
  simpl in H |- *. apply andb_prop in H as [Hab H].
  apply andb_true_intro. split; [|by apply IH].
  apply Z.eqb_eq in Hab. apply Z.leb_le. unfold bit_at.
  assert (Hb := f_equal (λ z, Z.testbit z (Z.of_nat l)) Hab). simpl in Hb.
  rewrite Z.ldiff_spec, Z.bits_0 in Hb.
  destruct (Z.testbit a _), (Z.testbit b _); simpl in Hb; lia.
Qed.

Lemma bit_at_push0 z b : bin b → bit_at 0 (2 * z + b) = b.
Proof.
  unfold bit_at. intros [-> | ->].
  - rewrite Z.add_0_r. simpl Z.of_nat. by rewrite Z.testbit_even_0.
  - simpl Z.of_nat. by rewrite Z.testbit_odd_0.
Qed.

Lemma bit_at_pushS l z b : bin b → bit_at (S l) (2 * z + b) = bit_at l z.
Proof.
  unfold bit_at. rewrite Nat2Z.inj_succ. intros [-> | ->].
  - rewrite Z.add_0_r, Z.testbit_even_succ by lia. done.
  - rewrite Z.testbit_odd_succ by lia. done.
Qed.

Lemma lane_zip0 v ws : length v = length ws → Forall (λ x, bin x) v →
  lane 0 (zip_with (λ b z, 2 * z + b) v ws) = v.
Proof.
  unfold lane. revert ws. induction v as [|b v IH]; intros [|z ws] Hl H; simpl in *; try done.
  apply Forall_cons in H as [Hb H]. rewrite bit_at_push0 by done. f_equal. apply IH; [lia|done].
Qed.

Lemma lane_zipS l v ws : length v = length ws → Forall (λ x, bin x) v →
  lane (S l) (zip_with (λ b z, 2 * z + b) v ws) = lane l ws.
Proof.
  unfold lane. revert ws. induction v as [|b v IH]; intros [|z ws] Hl H; simpl in *; try done.
  apply Forall_cons in H as [Hb H]. rewrite bit_at_pushS by done. f_equal. apply IH; [lia|done].
Qed.

Lemma slices_length V n : (∀ v, In v V → length v = n) → length (slices V n) = n.
Proof.
  induction V as [|v V IH]; intros H; simpl; [apply length_replicate|].
  rewrite length_zip_with, IH by (intros; apply H; by right).
  rewrite (H v) by (by left). lia.
Qed.

Lemma lane_slices V n l :
  (∀ v, In v V → length v = n ∧ Forall (λ x, bin x) v) → (l < length V)%nat →
  lane l (slices V n) = V !!! l.
Proof.
  revert l. induction V as [|v V IH]; intros l H Hl; simpl in Hl; [lia|].
  destruct (H v (or_introl eq_refl)) as [Hv H01].
  assert (HS : length (slices V n) = n)
    by (apply slices_length; intros w Hw; apply H; by right).
  destruct l as [|l]; cbn [slices].
  - change ((v :: V) !!! 0%nat) with v. apply lane_zip0; [lia | done].
  - change ((v :: V) !!! S l) with (V !!! l). rewrite lane_zipS by (lia || done).
    apply IH; [intros; apply H; by right | lia].
Qed.

Lemma lane_expand l m o : Z.testbit m (Z.of_nat l) = true → Forall (λ x, bin x) o →
  lane l (expand m o) = o.
Proof.
  intros Hm Ho. unfold lane, expand.
  induction Ho as [|b o Hb Ho IH]; [done|]. rewrite !fmap_cons, IH.
  destruct Hb as [-> | ->]; simpl; unfold bit_at; [rewrite Z.bits_0 | rewrite Hm]; done.
Qed.

Lemma lane_app l s t : lane l (s ++ t) = lane l s ++ lane l t.
Proof. apply fmap_app. Qed.

Lemma block_lookup o n (d : list Z) k : (o ≤ k < o + n)%nat → take n (drop o d) !!! (k - o)%nat = d !!! k.
Proof.
  intros Hk. rewrite lookup_total_take_lt by lia. rewrite lookup_total_drop. f_equal. lia.
Qed.

Lemma block_SWAP_in o n i j d : inside o n i = true → inside o n j = true → i ≠ j →
  block o n (SWAP i j d) = SWAP (i - o) (j - o) (block o n d).
Proof.
  unfold inside. intros Hi Hj Hij.
  apply andb_prop in Hi as [Hi1 Hi2]. apply andb_prop in Hj as [Hj1 Hj2].
  apply Nat.leb_le in Hi1, Hj1. apply Nat.ltb_lt in Hi2, Hj2.
  unfold SWAP, block. cbv zeta.
  rewrite drop_insert_ge, take_insert_lt by lia.
  rewrite drop_insert_ge, take_insert_lt by lia.
  rewrite !list_lookup_total_insert_ne by lia.
  rewrite !(block_lookup o n d) by lia.
  reflexivity.
Qed.

Lemma block_insert_out o n k (x : Z) (d : list Z) : inside o n k = false →
  take n (drop o (<[k:=x]> d)) = take n (drop o d).
Proof.
  unfold inside. intros Hk. apply andb_false_iff in Hk as [Hk|Hk].
  - apply Nat.leb_gt in Hk. by rewrite drop_insert_lt.
  - apply Nat.ltb_ge in Hk. rewrite drop_insert_ge by lia. apply take_insert_ge. lia.
Qed.

Lemma block_SWAP_out o n i j d : inside o n i = false → inside o n j = false →
  block o n (SWAP i j d) = block o n d.
Proof.
  intros Hi Hj. unfold SWAP, block. cbv zeta.
  by rewrite !block_insert_out.
Qed.

(** A network that respects a block acts on it as its local comparators. *)
Lemma block_run o n net d :
  respects_block o n net = true → no_self_loops net = true →
  block o n (run_net net d) = run_net (local o n net) (block o n d).
Proof.
  unfold run_net, local. revert d.
  induction net as [|[i j] net IH]; intros d Hb Hn; [done|].
  cbn [respects_block no_self_loops forallb] in Hb, Hn.
  apply andb_prop in Hb as [Hij Hb]. apply andb_prop in Hn as [Hij' Hn].
  apply negb_true_iff, Nat.eqb_neq in Hij'.
  cbn [fold_left List.filter].
  destruct (inside o n i) eqn:Ei, (inside o n j) eqn:Ej; simpl in Hij; try discriminate.
  - cbn [map fold_left]. rewrite IH by done. by rewrite block_SWAP_in.
  - rewrite IH by done. by rewrite block_SWAP_out.
Qed.

Lemma block_length o n d : (o + n ≤ length d)%nat → length (block o n d) = n.
Proof. intros H. unfold block. rewrite length_take, length_drop. lia. Qed.

Lemma block_bin o n d : Forall (λ x, bin x) d → Forall (λ x, bin x) (block o n d).
Proof. intros H. unfold block. by apply Forall_take, Forall_drop. Qed.

Lemma image_check net n outs v :
  forallb (λ w, existsb (λ u, bool_decide (u = run_net net w)) outs) (bits n) = true →
  length v = n → Forall (λ x, bin x) v → In (run_net net v) outs.
Proof.
  intros Hc Hl H. apply bits_complete in H. rewrite Hl in H.
  rewrite forallb_forall in Hc. apply Hc, existsb_exists in H as [u [Hu E]].
  apply bool_decide_eq_true in E. by subst.
Qed.

Lemma prefix_block4 o b : In o [0; 4; 8; 15; 19; 23]%nat → length b = 27%nat →
  Forall (λ x, bin x) b → In (block o 4 (run_net sort27b_prefix b)) block4_out.
Proof.
  intros Ho Hl H.
  assert (Hr : respects_block o 4 sort27b_prefix = true ∧ local o 4 sort27b_prefix = block4_net)
    by (destruct Ho as [<-|[<-|[<-|[<-|[<-|[<-|[]]]]]]]; split; vm_compute; reflexivity).
  destruct Hr as [Hr Hloc].
  rewrite block_run, Hloc by (done || (vm_compute; reflexivity)).
  apply (image_check _ 4); [vm_compute; reflexivity | | by apply block_bin].
  apply block_length. destruct Ho as [<-|[<-|[<-|[<-|[<-|[<-|[]]]]]]]; lia.
Qed.

Lemma prefix_block3 b : length b = 27%nat →
  Forall (λ x, bin x) b → In (block 12 3 (run_net sort27b_prefix b)) block3_out.
Proof.
  intros Hl H.
  rewrite block_run by (vm_compute; reflexivity).
  change (local 12 3 sort27b_prefix) with block3_net.
  apply (image_check _ 3); [vm_compute; reflexivity | | by apply block_bin].
  apply block_length. lia.
Qed.

Lemma split27 (l : list Z) : length l = 27%nat →
  take 12 l = block 0 4 l ++ block 4 4 l ++ block 8 4 l ++ [] ∧
  drop 12 l = block 12 3 l ++ block 15 4 l ++ block 19 4 l ++ block 23 4 l ++ [].
Proof.
  intros Hl. do 27 (destruct l as [|? l]; [simpl in Hl; lia|]).
  destruct l; [|simpl in Hl; lia]. split; reflexivity.
Qed.

Lemma cat_all_cons v w vs Ss : In v vs → In w (cat_all Ss) → In (v ++ w) (cat_all (vs :: Ss)).
Proof. intros Hv Hw. simpl. apply in_flat_map. exists v. split; [done|]. by apply in_map. Qed.

(** After the first two stages, a 0/1 array of 27 elements has its first
    twelve wires among the lanes and the other fifteen among the outer cases. *)
Lemma sort27b_prefix_split b : length b = 27%nat → Forall (λ x, bin x) b →
  In (take 12 (run_net sort27b_prefix b)) sort27b_lanes ∧
  In (drop 12 (run_net sort27b_prefix b)) sort27b_outer.
Proof.
  intros Hl H.
  assert (Hl' : length (run_net sort27b_prefix b) = 27%nat) by (by rewrite run_net_length).
  destruct (split27 _ Hl') as [E1 E2]. rewrite E1, E2.
  split; repeat apply cat_all_cons; try (by left).
  all: first [by apply prefix_block3 | apply prefix_block4; [simpl; tauto | done | done]].
Qed.

Lemma sort27b_lanes_shape v : In v sort27b_lanes → length v = 12%nat ∧ Forall (λ x, bin x) v.
Proof.
  intros Hv.
  assert (Hc : forallb (λ w, (length w =? 12)%nat && forallb (λ x, (x =? 0) || (x =? 1)) w)
                 sort27b_lanes = true) by (vm_compute; reflexivity).
  rewrite forallb_forall in Hc. apply Hc, andb_prop in Hv as [Hl H01].
  split; [by apply Nat.eqb_eq|].
  apply Forall_forall. intros x Hx. apply list_elem_of_In in Hx.
  rewrite forallb_forall in H01. apply H01, orb_prop in Hx as [E|E]; apply Z.eqb_eq in E; auto.
Qed.

(** The remaining 121 comparators sort every combination. *)
Lemma sort27b_check_ok :
  (let base := slices sort27b_lanes 12 in
   forallb (λ o, sliced_sorted (run_sliced sort27b_rest (base ++ expand (Z.ones 216) o)))
     sort27b_outer) = true.
Proof. vm_compute. reflexivity. Qed.

(** sort27b sorts every 0/1 array of 27 elements. *)
Lemma sort27b_sorts01 b : length b = 27%nat → Forall (λ x, bin x) b →
  sortedb (run_net Sorting.sort27b_net b) = true.
Proof.
  intros Hl H01.
  rewrite <- (take_drop 26 Sorting.sort27b_net), run_net_app.
  fold sort27b_prefix sort27b_rest.
  destruct (sort27b_prefix_split b Hl H01) as [Hpre Hout].
  set (b' := run_net sort27b_prefix b) in *.
  assert (Hp : b' ≡ₚ b) by (apply run_net_perm; rewrite Hl; vm_compute; reflexivity).
  assert (Hl' : length b' = 27%nat) by (unfold b'; by rewrite run_net_length).
  assert (H01' : Forall (λ x, bin x) b').
  { rewrite Forall_forall in H01 |- *. intros x Hx. apply H01. by rewrite <- Hp. }
  apply list_elem_of_In, list_elem_of_lookup_1 in Hpre as [l Hlk].
  assert (Hlt : (l < length sort27b_lanes)%nat) by (apply lookup_lt_Some in Hlk; exact Hlk).
  apply list_lookup_total_correct in Hlk.
  assert (Ho : Forall (λ x, bin x) (drop 12 b')) by (by apply Forall_drop).
  set (s := slices sort27b_lanes 12 ++ expand (Z.ones 216) (drop 12 b')).
  assert (Hb' : lane l s = b').
  { unfold s. rewrite lane_app, lane_slices, lane_expand, Hlk; [by rewrite take_drop | | | | ].
    - apply Z.ones_spec_low. change (length sort27b_lanes) with 216%nat in Hlt. lia.
    - done.
    - apply sort27b_lanes_shape.
    - exact Hlt. }
  assert (Hs : length s = 27%nat) by (rewrite <- Hl', <- Hb'; unfold lane; by rewrite length_fmap).
  rewrite <- Hb', <- run_sliced_lane.
  - apply sliced_sorted_lane. pose proof sort27b_check_ok as Hc.
    cbv zeta in Hc. rewrite forallb_forall in Hc.
    exact (Hc (drop 12 b') Hout).
  - vm_compute. reflexivity.
  - rewrite Hs. vm_compute. reflexivity.
Qed.

End SlicedFacts.

(* ------------------------------------------------------------------ *)
(** ** The neighbor collector *)

Section CollectorFacts.
Import Fmedian.

Lemma wrap32_le d : 0 ≤ d → wrap32 d ≤ d.
Proof.
  intros Hd. unfold wrap32.
  pose proof (Z.mod_le (d + 2^31) (2^32) ltac:(lia) ltac:(lia)). lia.
Qed.

Lemma wrap32_id d : - 2^31 ≤ d < 2^31 → wrap32 d = d.
Proof. intros Hd. unfold wrap32. rewrite Z.mod_small; lia. Qed.

Lemma in_bounds_get g ny nx :
  in_bounds g ny nx = true → in_get g ny nx = Some (cell_value g ny nx).
Proof.
  unfold in_bounds, in_get, height, width. intros H.
  repeat rewrite andb_true_iff in H. rewrite !Z.leb_le, !Z.ltb_lt in H.
  pose proof (wrap32_le (Z.of_N (g_dim0 g)) ltac:(lia)).
  pose proof (wrap32_le (Z.of_N (g_dim1 g)) ltac:(lia)).
  replace ((0 <=? ny) && (ny <? Z.of_N (g_dim0 g)) && (0 <=? nx) && (nx <? Z.of_N (g_dim1 g)))
    with true; [done|].
  symmetry. repeat rewrite andb_true_iff. rewrite !Z.leb_le, !Z.ltb_lt. lia.
Qed.

Lemma fold_nested {A B C} (f : A → B → C → A) (Ly : list B) (Lx : list C) st :
  fold_left (fun st y => fold_left (fun st x => f st y x) Lx st) Ly st =
  fold_left (fun st '(y, x) => f st y x) (list_prod Ly Lx) st.
Proof.
  revert st. induction Ly as [|y Ly IH]; intros st; simpl; [done|].
  rewrite fold_left_app, <- IH. f_equal.
  clear IH. revert st. induction Lx as [|x Lx IH]; intros st; simpl; auto.
Qed.

Lemma length_c_for lo hi : length (c_for lo hi) = Z.to_nat (hi - lo + 1).
Proof. unfold c_for. by rewrite length_map, length_seq. Qed.

Lemma collect_fold g t y x c L buf cnt :
  (cnt + length (List.filter (admissible g t y x c) L) ≤ length buf)%nat →
  ∃ buf', fold_left (fun st '(dy, dx) => collect_step g t y x c st dy dx) L (Some (buf, cnt))
          = Some (buf', cnt + length (List.filter (admissible g t y x c) L))%nat ∧
        take (cnt + length (List.filter (admissible g t y x c) L)) buf' =
          take cnt buf ++ map (fun '(dy, dx) => cell_value g (y + dy) (x + dx))
                                (List.filter (admissible g t y x c) L) ∧
        length buf' = length buf.
Proof.
  revert buf cnt. induction L as [|[dy dx] L IH]; intros buf cnt Hcap; simpl in *.
  - exists buf. rewrite Nat.add_0_r, app_nil_r. done.
  - remember (collect_step g t y x c (Some (buf, cnt)) dy dx) as st eqn:Est.
    unfold collect_step in Est. cbv zeta in Est.
    destruct (in_bounds g (y + dy) (x + dx)) eqn:Hb; simpl in *; subst st.
    + rewrite (in_bounds_get _ _ _ Hb).
      destruct (passes_threshold t (cell_value g (y + dy) (x + dx)) c) eqn:Ha; simpl in *.
      * destruct (Nat.ltb_spec cnt (length buf)); [|lia].
        destruct (IH (<[cnt := cell_value g (y + dy) (x + dx)]> buf) (S cnt))
          as (buf' & Hf & Ht & Hl); [rewrite length_insert; lia|].
        exists buf'. rewrite Nat.add_succ_r. split; [done|]. split.
        -- rewrite <- Nat.add_succ_l, Ht.
           rewrite (take_S_r _ _ (cell_value g (y + dy) (x + dx)))
             by (apply list_lookup_insert_eq; lia).
           rewrite take_insert_ge by lia. by rewrite <- app_assoc.
        -- by rewrite Hl, length_insert.
      * by apply IH.
    + by apply IH.
Qed.

Lemma collect_spec g xsize ysize t y x c neighbors :
  (length (offsets xsize ysize) ≤ length neighbors)%nat →
  ∃ neighbors',
    collect g xsize ysize t y x c neighbors =
      Some (neighbors', length (List.filter (admissible g t y x c) (offsets xsize ysize))) ∧
    take (length (List.filter (admissible g t y x c) (offsets xsize ysize))) neighbors' =
      map (fun '(dy, dx) => cell_value g (y + dy) (x + dx))
        (List.filter (admissible g t y x c) (offsets xsize ysize)) ∧
    length neighbors' = length neighbors.
Proof.
  intros Hcap. unfold collect.
  rewrite (fold_nested (fun st dy dx => collect_step g t y x c st dy dx)).
  destruct (collect_fold g t y x c (offsets xsize ysize) neighbors 0)
    as (buf' & Hf & Ht & Hl).
  - pose proof (filter_length_le (admissible g t y x c) (offsets xsize ysize)). lia.
  - exists buf'. split; [exact Hf|]. split; [exact Ht|exact Hl].
Qed.

Lemma length_offsets xsize ysize :
  length (offsets xsize ysize) = (Z.to_nat (2 * ysize + 1) * Z.to_nat (2 * xsize + 1))%nat.
Proof.
  unfold offsets. rewrite length_prod, !length_c_for.
  f_equal; f_equal; lia.
Qed.

Lemma passes_threshold_spec t v c : passes_threshold t v c = true ↔ (Qabs (inject_Z (v - c)) < t)%Q.
Proof.
  unfold passes_threshold. rewrite negb_true_iff. split.
  - intros H. apply Qnot_le_lt. intros Hle. apply Qle_bool_iff in Hle. congruence.
  - intros H. destruct (Qle_bool t _) eqn:E; [|done].
    apply Qle_bool_iff in E. exfalso. apply (Qlt_not_le _ _ H E).
Qed.

End CollectorFacts.

(* ------------------------------------------------------------------ *)
(** ** The neighbor buffer is large enough *)

Section BufferFacts.
Import Fmedian.

Lemma is_int16_range z : is_int16 z = true ↔ -32768 ≤ z ≤ 32767.
Proof. unfold is_int16. rewrite andb_true_iff, !Z.leb_le. done. Qed.

(** The number of window offsets never exceeds the int16 slots of the block
    requested from [malloc], overflow of [max_neighbors] included. *)
Lemma offsets_le_capacity xsize ysize :
  is_int16 xsize = true → is_int16 ysize = true →
  (length (offsets xsize ysize) ≤ Z.to_nat (malloc_request xsize ysize / 2))%nat.
Proof.
  intros Hx%is_int16_range Hy%is_int16_range. rewrite length_offsets.
  destruct (Z.ltb_spec xsize 0) as [Hxn|Hxp].
  { replace (Z.to_nat (2 * xsize + 1)) with 0%nat by lia. lia. }
  destruct (Z.ltb_spec ysize 0) as [Hyn|Hyp].
  { replace (Z.to_nat (2 * ysize + 1)) with 0%nat by lia. lia. }
  rewrite <- Z2Nat.inj_mul by lia. apply Z2Nat.inj_le; [nia| |].
  { unfold malloc_request, wrap64u.
    apply Z.div_pos; [apply Z.mod_pos_bound|]; lia. }
  set (P := (2 * xsize + 1) * (2 * ysize + 1)).
  assert (HP : 1 ≤ P ≤ 65535 * 65535) by (unfold P; nia).
  unfold malloc_request, max_neighbors, wrap64u. fold P.
  destruct (Z.ltb_spec P (2^31)) as [Hs|Hb].
  - rewrite wrap32_id by lia. rewrite Z.mod_small by lia.
    rewrite Z.div_mul by lia. lia.
  - assert (Hw : wrap32 P = P - 2^32).
    { unfold wrap32.
      replace (P + 2^31) with ((P + 2^31 - 2^32) + 1 * 2^32) by lia.
      rewrite Z.mod_add, Z.mod_small by lia. lia. }
    rewrite Hw.
    replace ((P - 2^32) * 2) with ((P - 2^32 + 2^63) * 2 + (-1) * 2^64) by lia.
    rewrite Z.mod_add, Z.mod_small by lia. rewrite Z.div_mul by lia. lia.
Qed.

Lemma malloc_request_nonneg xsize ysize : 0 ≤ malloc_request xsize ysize.
Proof. unfold malloc_request, wrap64u. apply Z.mod_pos_bound. lia. Qed.

End BufferFacts.

(* ------------------------------------------------------------------ *)
(** ** compute_median *)

Section MedianFacts.
Import Fmedian.

Lemma qsort_length l : length (qsort l) = length l.
Proof. apply Permutation_length, merge_sort_Permutation. Qed.

Lemma compute_median_fst values count :
  fst (compute_median values count) = reference_sort (take count values) ++ drop count values.
Proof.
  unfold compute_median. destruct (Nat.eqb_spec count 0) as [->|Hc].
  - simpl. reflexivity.
  - by destruct (Nat.even count).
Qed.

Lemma compute_median_length values count :
  (count ≤ length values)%nat → length (fst (compute_median values count)) = length values.
Proof.
  intros H. rewrite compute_median_fst, length_app.
  unfold reference_sort. rewrite (Permutation_length (merge_sort_Permutation _ _)).
  rewrite length_take, length_drop. lia.
Qed.

Lemma compute_median_snd values count :
  (count ≤ length values)%nat →
  snd (compute_median values count) =
    if (count =? 0)%nat then 0%Q
    else if Nat.even count
    then (inject_Z (reference_sort (take count values) !!! (count / 2 - 1)%nat +
                    reference_sort (take count values) !!! (count / 2)%nat) / 2)%Q
    else inject_Z (reference_sort (take count values) !!! (count / 2)%nat).
Proof.
  intros H. unfold compute_median.
  destruct (Nat.eqb_spec count 0) as [->|Hc]; [done|].
  assert (Hl : length (qsort (take count values)) = count)
    by (rewrite qsort_length, length_take; lia).
  assert (Hh : (count / 2 < count)%nat) by (apply Nat.div_lt; lia).
  destruct (Nat.even count) eqn:He; cbn [snd].
  - rewrite !lookup_total_app_l by lia. done.
  - rewrite lookup_total_app_l by lia. done.
Qed.

(** The result depends only on the [count] first entries. *)
Lemma compute_median_prefix values count :
  (count ≤ length values)%nat →
  snd (compute_median values count) = median (take count values).
Proof.
  intros H. unfold median. rewrite length_take, Nat.min_l by done.
  rewrite !compute_median_snd by (rewrite ?length_take; lia).
  by rewrite take_take, Nat.min_id.
Qed.

End MedianFacts.

(* ------------------------------------------------------------------ *)
(** ** The pixel loops *)

Section DriverFacts.
Import Fmedian.

Lemma elem_c_for lo hi z : In z (c_for lo hi) ↔ lo ≤ z ≤ hi.
Proof.
  unfold c_for. rewrite in_map_iff. split.
  - intros (k & <- & Hk). apply in_seq in Hk. lia.
  - intros Hz. exists (Z.to_nat (z - lo)). split; [lia|]. apply in_seq. lia.
Qed.

Lemma NoDup_c_for lo hi : NoDup (c_for lo hi).
Proof.
  unfold c_for. apply NoDup_ListNoDup, Injective_map_NoDup; [|apply seq_NoDup].
  intros a b Hab. lia.
Qed.

Lemma NoDup_list_prod {A B} (l1 : list A) (l2 : list B) :
  NoDup l1 → NoDup l2 → NoDup (list_prod l1 l2).
Proof.
  intros H1 H2. induction H1 as [|a l1 Ha H1 IH]; simpl; [constructor|].
  apply NoDup_app. split; [|split; [|done]].
  - apply NoDup_ListNoDup, Injective_map_NoDup; [|by apply NoDup_ListNoDup].
    intros x y Hxy. congruence.
  - intros [a' b'] Hin Hin'. apply list_elem_of_In in Hin, Hin'.
    apply in_map_iff in Hin as (b & Heq & _). injection Heq as <- <-.
    apply in_prod_iff in Hin' as [Ha' _]. apply Ha, list_elem_of_In, Ha'.
Qed.




(** One pixel: the buffer keeps its length and the median of the pixel's
    admitted-neighbor list is stored at the pixel's output address. *)
Lemma process_pixel_step g os0 os1 xsize ysize t neighbors out y x :
  (length (offsets xsize ysize) ≤ length neighbors)%nat →
  0 ≤ y < Z.of_N (g_dim0 g) → 0 ≤ x < Z.of_N (g_dim1 g) →
  ∃ neighbors',
    process_pixel g os0 os1 xsize ysize t (Some (neighbors, out)) y x =
      Some (neighbors', store_double (cell_address os0 os1 y x)
                          (median (neighbor_list g xsize ysize t y x)) out) ∧
    length neighbors' = length neighbors.
Proof.
  intros Hcap Hy Hx. unfold process_pixel.
  replace (in_get g y x) with (Some (cell_value g y x)).
  2:{ unfold in_get. replace ((0 <=? y) && (y <? Z.of_N (g_dim0 g)) && (0 <=? x)
        && (x <? Z.of_N (g_dim1 g))) with true; [done|].
      symmetry. repeat rewrite andb_true_iff. rewrite !Z.leb_le, !Z.ltb_lt. lia. }
  destruct (collect_spec g xsize ysize t y x (cell_value g y x) neighbors Hcap)
    as (nb & Hc & Ht & Hl).
  rewrite Hc.
  set (n := length (List.filter _ _)) in *.
  assert (Hn : (n ≤ length nb)%nat).
  { rewrite Hl. unfold n. pose proof (filter_length_le (admissible g t y x (cell_value g y x))
      (offsets xsize ysize)). lia. }
  destruct (compute_median nb n) as [nb' m] eqn:Em.
  exists nb'. split.
  - do 3 f_equal. replace m with (snd (compute_median nb n)) by (by rewrite Em).
    rewrite compute_median_prefix by done. rewrite Ht. done.
  - replace nb' with (fst (compute_median nb n)) by (by rewrite Em).
    by rewrite compute_median_length.
Qed.

Lemma pixel_fold g os0 os1 xsize ysize t L neighbors out :
  (length (offsets xsize ysize) ≤ length neighbors)%nat →
  (∀ y x, In (y, x) L → 0 ≤ y < Z.of_N (g_dim0 g) ∧ 0 ≤ x < Z.of_N (g_dim1 g)) →
  ∃ neighbors',
    fold_left (fun st '(y, x) => process_pixel g os0 os1 xsize ysize t st y x) L
      (Some (neighbors, out)) =
    Some (neighbors', fold_left (fun out c =>
             store_double (cell_address os0 os1 c.1 c.2)
               (median (neighbor_list g xsize ysize t c.1 c.2)) out)
           L out).
Proof.
  revert neighbors out. induction L as [|[y x] L IH]; intros neighbors out Hcap HL;
    cbn [fold_left].
  - by exists neighbors.
  - destruct (HL y x (or_introl eq_refl)) as [Hy Hx].
    destruct (process_pixel_step g os0 os1 xsize ysize t neighbors out y x Hcap Hy Hx)
      as (nb & -> & Hl).
    apply IH; [lia|]. intros y' x' Hin. apply HL. by right.
Qed.



(** The pixel loops of a call whose dimensions fit in [int]. *)
Lemma fmedian_success ia oa imem omem xsize ysize t malloc_ok h w :
  nd_shape ia = [h; w] → nd_shape oa = [h; w] →
  nd_type ia = NPY_INT16 → nd_type oa = NPY_FLOAT64 →
  is_int16 xsize = true → is_int16 ysize = true →
  malloc_ok (malloc_request xsize ysize) = true →
  (h < 2^31)%N → (w < 2^31)%N →
  fmedian ia oa imem omem xsize ysize t malloc_ok =
    (Ret_None, fold_left (fun out c =>
        store_double (cell_address (nd_strides oa !!! 0%nat) (nd_strides oa !!! 1%nat) c.1 c.2)
          (median (neighbor_list (input_grid ia imem) xsize ysize t c.1 c.2)) out)
      (list_prod (c_for 0 (Z.of_N h - 1)) (c_for 0 (Z.of_N w - 1))) omem).
Proof.
  intros Hia Hoa Hti Hto Hx Hy Hm Hh Hw.
  unfold fmedian. rewrite Hx, Hy, Hia, Hoa, Hti, Hto, Hm. cbn -[malloc_request pixel_loop].
  rewrite !N.eqb_refl. cbn -[malloc_request pixel_loop input_grid].
  set (g := input_grid ia imem).
  assert (H0 : g_dim0 g = h) by (unfold g, input_grid; by rewrite Hia).
  assert (H1 : g_dim1 g = w) by (unfold g, input_grid; by rewrite Hia).
  assert (Hhg : height g = Z.of_N h) by (unfold height; rewrite H0; apply wrap32_id; lia).
  assert (Hwg : width g = Z.of_N w) by (unfold width; rewrite H1; apply wrap32_id; lia).
  unfold pixel_loop. rewrite Hhg, Hwg, fold_nested.
  destruct (pixel_fold g (nd_strides oa !!! 0%nat) (nd_strides oa !!! 1%nat) xsize ysize t
    (list_prod (c_for 0 (Z.of_N h - 1)) (c_for 0 (Z.of_N w - 1)))
    (repeat 0 (Z.to_nat (malloc_request xsize ysize / 2))) omem) as (nb & Hf).
  - rewrite repeat_length. by apply offsets_le_capacity.
  - intros y x Hin. apply in_prod_iff in Hin as [Hy' Hx'].
    apply elem_c_for in Hy', Hx'. rewrite H0, H1. lia.
  - by rewrite Hf.
Qed.

Lemma filter_single {A} (p : A → bool) (L : list A) (a : A) :
  NoDup L → In a L → (∀ b, In b L → p b = true ↔ b = a) → List.filter p L = [a].
Proof.
  intros Hnd. induction Hnd as [|b L Hb Hnd IH]; intros Hin Hp; [done|]. simpl.
  destruct (p b) eqn:E.
  - apply Hp in E as ->; [|by left].
    assert (Hf : ∀ c, In c L → p c = false).
    { intros c Hc. destruct (p c) eqn:Ec; [|done]. apply Hp in Ec; [|by right].
      subst c. exfalso. apply Hb. by apply list_elem_of_In. }
    f_equal. clear IH Hnd Hb Hp Hin. induction L as [|c L IHL]; simpl; [done|].
    rewrite Hf by (by left). apply IHL. intros c' Hc'. apply Hf. by right.
  - destruct Hin as [->|Hin].
    + exfalso. assert (p a = true) by (apply Hp; [by left|done]). congruence.
    + apply IH; [done|]. intros c Hc. apply Hp. by right.
Qed.

Lemma elem_offsets xsize ysize dy dx :
  In (dy, dx) (offsets xsize ysize) ↔ - ysize ≤ dy ≤ ysize ∧ - xsize ≤ dx ≤ xsize.
Proof. unfold offsets. rewrite in_prod_iff, !elem_c_for. done. Qed.

Lemma NoDup_offsets xsize ysize : NoDup (offsets xsize ysize).
Proof. apply NoDup_list_prod; apply NoDup_c_for. Qed.

Lemma passes_threshold_self (t : Q) v : (0 < t)%Q → passes_threshold t v v = true.
Proof. intros Ht. apply passes_threshold_spec. rewrite Z.sub_diag. done. Qed.

Lemma passes_threshold_nonpos (t : Q) v c : (t <= 0)%Q → passes_threshold t v c = false.
Proof.
  intros Ht. destruct (passes_threshold t v c) eqn:E; [|done].
  apply passes_threshold_spec in E. pose proof (Qabs_nonneg (inject_Z (v - c))). lra.
Qed.

Lemma filter_none {A} (p : A → bool) (L : list A) :
  (∀ a, In a L → p a = false) → List.filter p L = [].
Proof.
  induction L as [|a L IH]; intros H; simpl; [done|].
  rewrite H by (by left). apply IH. intros b Hb. apply H. by right.
Qed.

End DriverFacts.

(* ------------------------------------------------------------------ *)
(** * Claims *)

(** C1 (code_bug): the pure 27-element network of src/src/ftools/sorting.c
    (nine sort3, three sort9, then the fixed merge sequence) does not sort the
    permutation [sort27_failing_input]: it leaves 13 before 12. *)
Theorem Ftools_sort27_not_sorting :
  FtoolsSorting.sort27 sort27_failing_input =
    [0; 1; 2; 3; 4; 5; 6; 7; 8; 9; 10; 11; 13; 12; 14; 15; 16; 17; 18;
     19; 20; 21; 22; 23; 24; 25; 26] ∧
  FtoolsSorting.sort27 sort27_failing_input ≠ reference_sort sort27_failing_input.
Proof. split; vm_compute; [reflexivity | discriminate]. Qed.

Ltac dispatch_case Hn :=
  cbv beta iota fix delta [Nat.ltb Nat.leb];
  lazymatch goal with
  | |- SWAP 0 1 _ = _ => apply SWAP01_ok; by symmetry
  | |- Sorting.sort3 _ = _ => apply Sorting_sort3_ok; by symmetry
  | |- Sorting.sort4 _ = _ => apply Sorting_sort4_ok; by symmetry
  | |- Sorting.sort9 _ = _ => apply Sorting_sort9_ok; by symmetry
  | |- Sorting.sort25 _ = _ => apply Sorting_sort25_ok; by symmetry
  | |- Sorting.sort27 _ = _ => apply Sorting_sort27_ok; by symmetry
  | |- insertion_sort _ _ = _ => rewrite Hn; apply insertion_sort_is_reference
  end.

(** C2: for every array, [sort_doubles(values, count)] with [count] the
    array's length leaves it equal to the reference comparison sort, whichever
    branch (no-op, network, insertion sort, qsort) is taken. *)
Theorem sort_doubles_is_reference (values : list Z) :
  Sorting.sort_doubles values (length values) = reference_sort values.
Proof.
  remember (length values) as n eqn:Hn. unfold Sorting.sort_doubles.
  destruct (Nat.leb_spec n 1) as [Hle|Hgt].
  - apply sorted_perm_is_reference; [|done].
    destruct values as [|x [|y t]]; simpl in Hn; [constructor|repeat constructor|lia].
  - do 28 (destruct n as [|n]; [lia || dispatch_case Hn|]).
    match goal with |- context [Nat.ltb ?a 40] => destruct (Nat.ltb a 40) end.
    + rewrite Hn. apply insertion_sort_is_reference.
    + apply qsort_is_reference.
Qed.

(* ------------------------------------------------------------------ *)
(** ** Claims about the filter *)

Section FilterClaims.
Import Fmedian FmedianTests.

(** C3 (code_bug): the driver does not process every cell.  The call on a
    2^31 × 1 grid is valid (two dimensions, same shape, int16 and float64)
    and returns [None], yet it writes no byte of the output, the cell
    [(0, 0)] included: [height] is [(int)2^31 = -2^31] and the loop over [y]
    never runs. *)
Lemma fmedian_tall_grid_untouched :
  nd_shape in_tall = nd_shape out_tall ∧ length (nd_shape in_tall) = 2%nat ∧
  nd_type in_tall = NPY_INT16 ∧ nd_type out_tall = NPY_FLOAT64 ∧
  fmedian in_tall out_tall (fun _ => 7) ∅ 1 1 1 (fun _ => true) = (Ret_None, ∅) ∧
  load_bytes (snd (fmedian in_tall out_tall (fun _ => 7) ∅ 1 1 1 (fun _ => true)))
    (cell_address 8 8 0 0) = repeat None 8.
Proof. vm_compute. repeat split. Qed.

(** C4: [compute_median(values, count)] with [count] at most the array's
    length leaves the first [count] entries sorted ascending (the rest
    untouched) and returns 0 for [count = 0], the sorted entry at [count / 2]
    for odd [count], and the mean of the sorted entries at [count / 2 - 1] and
    [count / 2] for even non-zero [count]. *)
Theorem compute_median_spec values count :
  (count ≤ length values)%nat →
  fst (compute_median values count) =
    reference_sort (take count values) ++ drop count values ∧
  (count = 0%nat → snd (compute_median values count) = 0%Q) ∧
  (Nat.Odd count →
     snd (compute_median values count) =
       inject_Z (reference_sort (take count values) !!! (count / 2)%nat)) ∧
  (count ≠ 0%nat → Nat.Even count →
     (snd (compute_median values count) ==
       (inject_Z (reference_sort (take count values) !!! (count / 2 - 1)%nat) +
        inject_Z (reference_sort (take count values) !!! (count / 2)%nat)) / 2)%Q).
Proof.
  intros Hc. split; [apply compute_median_fst|].
  rewrite (compute_median_snd values count Hc). split; [|split].
  - intros ->. done.
  - intros Hodd. destruct (Nat.eqb_spec count 0) as [->|_].
    + destruct Hodd as [k Hk]. lia.
    + apply Nat.odd_spec in Hodd. rewrite <- Nat.negb_odd, Hodd. done.
  - intros Hnz Hev. apply Nat.eqb_neq in Hnz. rewrite Hnz.
    apply Nat.even_spec in Hev. rewrite Hev. rewrite inject_Z_plus. reflexivity.
Qed.

Lemma compute_median_spec_witness :
  fst (compute_median [7; 1; 4; 2; 9] 4) = [1; 2; 4; 7; 9] ∧
  (snd (compute_median [7; 1; 4; 2; 9]%Z 4) == (inject_Z 2 + inject_Z 4) / 2)%Q.
Proof.
  destruct (compute_median_spec [7; 1; 4; 2; 9] 4 ltac:(simpl; lia)) as (H1 & _ & _ & H4).
  split.
  - rewrite H1. vm_compute. reflexivity.
  - rewrite H4; [vm_compute; reflexivity | lia | exists 2%nat; lia].
Defined.

(** C5: for a buffer with room for the whole window, the collector of the
    cell [(y, x)] runs without error and leaves in its buffer exactly the
    values of the window offsets [(dy, dx)] it admits, in loop order; an
    offset is admitted iff [(y + dy, x + dx)] lies in [[0, height) × [0,
    width)] and the value there differs from the center value by strictly
    less than the threshold; a difference equal to the threshold is not
    admitted. *)
Theorem collector_admission g xsize ysize t y x neighbors :
  (length (offsets xsize ysize) ≤ length neighbors)%nat →
  (∃ neighbors',
     collect g xsize ysize t y x (cell_value g y x) neighbors =
       Some (neighbors', length (List.filter (admissible g t y x (cell_value g y x))
                                  (offsets xsize ysize))) ∧
     take (length (List.filter (admissible g t y x (cell_value g y x)) (offsets xsize ysize)))
       neighbors' = neighbor_list g xsize ysize t y x) ∧
  (∀ dy dx, admissible g t y x (cell_value g y x) (dy, dx) = true ↔
     0 ≤ y + dy < height g ∧ 0 ≤ x + dx < width g ∧
     (Qabs (inject_Z (cell_value g (y + dy) (x + dx) - cell_value g y x)) < t)%Q) ∧
  (∀ dy dx, (Qabs (inject_Z (cell_value g (y + dy) (x + dx) - cell_value g y x)) == t)%Q →
     admissible g t y x (cell_value g y x) (dy, dx) = false).
Proof.
  intros Hcap. split; [|split].
  - destruct (collect_spec g xsize ysize t y x (cell_value g y x) neighbors Hcap)
      as (nb & Hc & Ht & _).
    exists nb. split; [done|]. rewrite Ht. done.
  - intros dy dx. unfold admissible, in_bounds.
    rewrite !andb_true_iff, passes_threshold_spec, !Z.leb_le, !Z.ltb_lt. tauto.
  - intros dy dx Heq. unfold admissible.
    destruct (passes_threshold t _ _) eqn:E; [|by rewrite andb_false_r].
    apply passes_threshold_spec in E. rewrite Heq in E. by apply Qlt_irrefl in E.
Qed.

Lemma collector_admission_witness :
  ∃ nb, collect g3 1 1 5 1 1 (cell_value g3 1 1) (repeat 0 9) = Some (nb, 1%nat) ∧
        take 1 nb = [50].
Proof.
  destruct (collector_admission g3 1 1 5 1 1 (repeat 0 9) ltac:(vm_compute; lia))
    as ((nb & Hc & Ht) & _ & _).
  exists nb. vm_compute in Hc, Ht |- *. split; [exact Hc | exact Ht].
Defined.

(** C6 (corrected): with a positive threshold and non-negative half-extents,
    the center value of an in-bounds cell is among its admitted neighbors and
    the collector admits at least one value. *)
Theorem center_always_admitted g xsize ysize t y x neighbors :
  (0 < t)%Q → 0 ≤ xsize → 0 ≤ ysize → 0 ≤ y < height g → 0 ≤ x < width g →
  (length (offsets xsize ysize) ≤ length neighbors)%nat →
  In (cell_value g y x) (neighbor_list g xsize ysize t y x) ∧
  ∃ neighbors' count,
    collect g xsize ysize t y x (cell_value g y x) neighbors = Some (neighbors', count) ∧
    (1 ≤ count)%nat.
Proof.
  intros Ht Hxs Hys Hy Hx Hcap.
  assert (Hin : In (0, 0) (List.filter (admissible g t y x (cell_value g y x))
                             (offsets xsize ysize))).
  { apply filter_In. split; [apply elem_offsets; lia|].
    unfold admissible. rewrite !Z.add_0_r, passes_threshold_self by done.
    unfold in_bounds. rewrite andb_true_r, !andb_true_iff, !Z.leb_le, !Z.ltb_lt. lia. }
  split.
  - unfold neighbor_list. apply in_map_iff. exists (0, 0). split; [|done].
    by rewrite !Z.add_0_r.
  - destruct (collect_spec g xsize ysize t y x (cell_value g y x) neighbors Hcap)
      as (nb & Hc & _ & _).
    do 2 eexists. split; [exact Hc|].
    destruct (List.filter _ _); [done|simpl; lia].
Qed.

Lemma center_always_admitted_witness :
  In 50 (neighbor_list g3 1 1 5 1 1).
Proof.
  assert (Hh : height g3 = 3) by reflexivity.
  assert (Hw : width g3 = 3) by reflexivity.
  destruct (center_always_admitted g3 1 1 5 1 1 (repeat 0 9) ltac:(reflexivity)
    ltac:(lia) ltac:(lia) ltac:(rewrite Hh; lia) ltac:(rewrite Hw; lia)
    ltac:(vm_compute; lia)) as [H _].
  exact H.
Defined.

(** With threshold 0 the center of a 3 × 3 grid is not admitted: the
    collector returns a count of 0. *)
Lemma zero_threshold_admits_nothing :
  collect g3 1 1 0 1 1 (cell_value g3 1 1) (repeat 0 9) = Some (repeat 0 9, 0%nat) ∧
  neighbor_list g3 1 1 0 1 1 = [].
Proof. vm_compute. split; reflexivity. Qed.

(** C7 (corrected): on a 1 × 1 grid, with non-negative half-extents and a
    successful [malloc]: if the threshold is positive, the only admitted
    neighbor of the single cell is its own value, and [fmedian] stores that
    value, as a double, at the output address of the cell; if the threshold
    is at most 0, nothing is admitted and the stored double is 0.0. *)
Theorem single_cell_identity ia oa imem omem xsize ysize t malloc_ok :
  nd_shape ia = [1; 1]%N → nd_shape oa = [1; 1]%N →
  nd_type ia = NPY_INT16 → nd_type oa = NPY_FLOAT64 →
  is_int16 xsize = true → is_int16 ysize = true → 0 ≤ xsize → 0 ≤ ysize →
  malloc_ok (malloc_request xsize ysize) = true →
  ((0 < t)%Q →
     neighbor_list (input_grid ia imem) xsize ysize t 0 0 = [imem 0] ∧
     fmedian ia oa imem omem xsize ysize t malloc_ok =
       (Ret_None, store_double 0 (inject_Z (imem 0)) omem)) ∧
  ((t <= 0)%Q →
     neighbor_list (input_grid ia imem) xsize ysize t 0 0 = [] ∧
     fmedian ia oa imem omem xsize ysize t malloc_ok = (Ret_None, store_double 0 0 omem)).
Proof.
  intros Hia Hoa Hti Hto Hx Hy Hxs Hys Hm.
  set (g := input_grid ia imem).
  assert (Hhg : height g = 1) by (unfold height, g, input_grid; by rewrite Hia).
  assert (Hwg : width g = 1) by (unfold width, g, input_grid; by rewrite Hia).
  rewrite (fmedian_success ia oa imem omem xsize ysize t malloc_ok 1 1) by done.
  change (list_prod (c_for 0 (Z.of_N 1 - 1)) (c_for 0 (Z.of_N 1 - 1))) with [(0, 0)].
  cbn [fold_left fst snd]. fold g. split.
  - intros Ht.
    assert (Hnl : neighbor_list g xsize ysize t 0 0 = [imem 0]).
    { unfold neighbor_list. rewrite (filter_single _ _ (0, 0)).
      - reflexivity.
      - apply NoDup_offsets.
      - apply elem_offsets. lia.
      - intros [dy dx] _. unfold admissible, in_bounds.
        rewrite Hhg, Hwg, andb_true_iff, !andb_true_iff, !Z.leb_le, !Z.ltb_lt.
        split.
        + intros [? _]. f_equal; lia.
        + intros [= -> ->]. split; [lia|]. apply passes_threshold_self, Ht. }
    split; [exact Hnl|]. rewrite Hnl. reflexivity.
  - intros Ht.
    assert (Hnl : neighbor_list g xsize ysize t 0 0 = []).
    { unfold neighbor_list. rewrite filter_none; [reflexivity|].
      intros [dy dx] _. unfold admissible. rewrite passes_threshold_nonpos by done.
      apply andb_false_r. }
    split; [exact Hnl|]. rewrite Hnl. reflexivity.
Qed.

Lemma single_cell_identity_witness :
  fmedian in1 out1 (fun _ => 5) ∅ 1 1 1 (fun _ => true) = (Ret_None, store_double 0 5 ∅) ∧
  fmedian in1 out1 (fun _ => 5) ∅ 1 1 0 (fun _ => true) = (Ret_None, store_double 0 0 ∅).
Proof.
  split.
  - apply (single_cell_identity in1 out1 (fun _ => 5) ∅ 1 1 1 (fun _ => true));
      [reflexivity.. | lia | lia | reflexivity | reflexivity].
  - apply (single_cell_identity in1 out1 (fun _ => 5) ∅ 1 1 0 (fun _ => true));
      [reflexivity.. | lia | lia | reflexivity | discriminate].
Defined.

(** With threshold 0 the single cell of a 1 × 1 grid holding 5 admits no
    neighbor and the output cell receives 0.0, not 5.0. *)
Lemma single_cell_zero_threshold :
  neighbor_list (input_grid in1 (fun _ => 5)) 1 1 0 0 0 = [] ∧
  fmedian in1 out1 (fun _ => 5) ∅ 1 1 0 (fun _ => true) = (Ret_None, store_double 0 0 ∅) ∧
  load_bytes (snd (fmedian in1 out1 (fun _ => 5) ∅ 1 1 0 (fun _ => true))) 0 =
    Some <$> double_bytes 0 ∧
  double_bytes 0 ≠ double_bytes 5.
Proof. vm_compute. repeat split. discriminate. Qed.

(** C8: whenever [fmedian] raises an exception, the output memory is the one
    it was called with: nothing has been written. *)
Theorem fmedian_error_leaves_output ia oa imem omem xsize ysize t malloc_ok e :
  fst (fmedian ia oa imem omem xsize ysize t malloc_ok) = Raise e →
  snd (fmedian ia oa imem omem xsize ysize t malloc_ok) = omem.
Proof.
  unfold fmedian. repeat case_match; simpl; congruence.
Qed.

Lemma fmedian_error_leaves_output_witness :
  fst (fmedian in3d out1 (fun _ => 5) {[0 := 64]} 1 1 1 (fun _ => true)) = Raise ValueError ∧
  snd (fmedian in3d out1 (fun _ => 5) {[0 := 64]} 1 1 1 (fun _ => true)) = {[0 := 64]}.
Proof.
  split; [reflexivity|].
  apply (fmedian_error_leaves_output _ _ _ _ _ _ _ _ ValueError). reflexivity.
Defined.

(** C9: for int16 half-extents, the collector run on the buffer [malloc]
    returns ([malloc_request / 2] int16 slots, the overflow of
    [max_neighbors] included) never writes out of it; its count is at most
    the capacity and at most [(2·xsize+1)·(2·ysize+1)] (0 for an empty
    window); and when that product fits in [int] the capacity is exactly the
    product. *)
Theorem collect_within_buffer g xsize ysize t y x c :
  is_int16 xsize = true → is_int16 ysize = true →
  (∃ neighbors' count,
     collect g xsize ysize t y x c
       (repeat 0 (Z.to_nat (malloc_request xsize ysize / 2))) = Some (neighbors', count) ∧
     (count ≤ Z.to_nat (malloc_request xsize ysize / 2))%nat ∧
     Z.of_nat count ≤ Z.max 0 (2 * xsize + 1) * Z.max 0 (2 * ysize + 1)) ∧
  (0 ≤ (2 * xsize + 1) * (2 * ysize + 1) < 2^31 →
     malloc_request xsize ysize / 2 = (2 * xsize + 1) * (2 * ysize + 1)).
Proof.
  intros Hx Hy. split.
  - pose proof (offsets_le_capacity xsize ysize Hx Hy) as Hcap.
    rewrite <- (repeat_length 0 (Z.to_nat (malloc_request xsize ysize / 2))) in Hcap.
    destruct (collect_spec g xsize ysize t y x c _ Hcap) as (nb & Hc & _ & _).
    pose proof (filter_length_le (admissible g t y x c) (offsets xsize ysize)) as Hf.
    rewrite repeat_length in Hcap.
    do 2 eexists. split; [exact Hc|]. split; [lia|].
    rewrite length_offsets in Hf.
    assert (E : ∀ a, Z.of_nat (Z.to_nat a) = Z.max 0 a) by lia.
    apply Nat2Z.inj_le in Hf. rewrite Nat2Z.inj_mul, !E in Hf. lia.
  - intros Hp. unfold malloc_request, wrap64u, max_neighbors.
    rewrite wrap32_id by lia. rewrite Z.mod_small by lia. apply Z.div_mul. lia.
Qed.

Lemma collect_within_buffer_witness :
  ∃ nb count, collect g3 1 1 5 1 1 50 (repeat 0 9) = Some (nb, count) ∧ (count ≤ 9)%nat.
Proof.
  destruct (collect_within_buffer g3 1 1 5 1 1 50 eq_refl eq_refl) as ((nb & count & H & Hle & _) & _).
  exists nb, count. split; [exact H|exact Hle].
Defined.

(** C10: for int16 [a] and [b], [compare_int16] computes [a - b] in [int]
    without overflow, and the sign of the result is the order of [a] and
    [b]. *)
Theorem compare_int16_order a b :
  is_int16 a = true → is_int16 b = true →
  compare_int16 a b = Some (a - b) ∧
  (a - b < 0 ↔ a < b) ∧ (a - b = 0 ↔ a = b) ∧ (0 < a - b ↔ b < a).
Proof.
  intros Ha%is_int16_range Hb%is_int16_range. split; [|lia].
  unfold compare_int16, is_int.
  replace ((-2^31 <=? a - b) && (a - b <=? 2^31 - 1)) with true; [done|].
  symmetry. rewrite andb_true_iff, !Z.leb_le. lia.
Qed.

Lemma compare_int16_order_witness :
  compare_int16 (-32768) 32767 = Some (-65535) ∧ (-32768 - 32767 < 0 ↔ -32768 < 32767).
Proof.
  destruct (compare_int16_order (-32768) 32767 eq_refl eq_refl) as (H & Hlt & _).
  split; [exact H | exact Hlt].
Defined.

End FilterClaims.

(* ------------------------------------------------------------------ *)
(** * Further properties of the code *)

(** ** Helpers *)

Section ExtraHelpers.
Import Fmedian.

Lemma median_shape l :
  l ≠ [] → ∃ a b, In a l ∧ In b l ∧ (median l == (inject_Z a + inject_Z b) / 2)%Q.
Proof.
  intros Hne. unfold median. rewrite compute_median_snd by done.
  rewrite take_ge by done.
  assert (Hl : (0 < length l)%nat) by (destruct l; [done|simpl; lia]).
  assert (Hin : ∀ i, (i < length l)%nat → In (reference_sort l !!! i) l).
  { intros i Hi. eapply Permutation_in; [apply reference_sort_perm|].
    apply list_elem_of_In, list_elem_of_lookup_total_2.
    rewrite (Permutation_length (reference_sort_perm l)). done. }
  assert (Hh : (length l / 2 < length l)%nat) by (apply Nat.div_lt; lia).
  destruct (Nat.eqb_spec (length l) 0) as [|_]; [lia|].
  destruct (Nat.even (length l)).
  - exists (reference_sort l !!! (length l / 2 - 1)%nat), (reference_sort l !!! (length l / 2)%nat).
    split; [apply Hin; lia|]. split; [apply Hin; lia|]. rewrite inject_Z_plus. reflexivity.
  - exists (reference_sort l !!! (length l / 2)%nat), (reference_sort l !!! (length l / 2)%nat).
    split; [apply Hin; lia|]. split; [apply Hin; lia|]. field.
Qed.









Lemma median_bounds l lo hi :
  l ≠ [] → (∀ v, In v l → lo <= inject_Z v <= hi)%Q → (lo <= median l <= hi)%Q.
Proof.
  intros Hne H. destruct (median_shape l Hne) as (a & b & Ha & Hb & ->).
  apply H in Ha, Hb. change ((inject_Z a + inject_Z b) / 2)%Q with
    ((inject_Z a + inject_Z b) * (1 # 2))%Q. lra.
Qed.

Lemma insertion_sort_take values count :
  (count ≤ length values)%nat →
  insertion_sort values count = reference_sort (take count values) ++ drop count values.
Proof.
  intros Hc. unfold insertion_sort. destruct count as [|m]; simpl.
  - reflexivity.
  - destruct values as [|v0 r]; simpl in Hc; [lia|]. rewrite Nat.sub_0_r.
    destruct (insertion_loop m 1 [v0] r) as (s' & Heq & Hs & Hp);
      [done|lia|by repeat constructor|].
    change (v0 :: r) with ([v0] ++ r). rewrite Heq. simpl.
    f_equal. apply sorted_perm_is_reference; [done|]. by rewrite Hp.
Qed.

End ExtraHelpers.

(* ------------------------------------------------------------------ *)
(** ** The sorting networks and the insertion sort *)

(** [sort3] of sorting/sorting.c sorts every array of three elements. *)
Theorem Sorting_sort3_sorts d : length d = 3%nat → Sorting.sort3 d = reference_sort d.
Proof. apply Sorting_sort3_ok. Qed.

Lemma Sorting_sort3_sorts_witness : Sorting.sort3 [3; 1; 2] = [1; 2; 3].
Proof. rewrite (Sorting_sort3_sorts [3; 1; 2]) by reflexivity. vm_compute. reflexivity. Defined.

(** [sort4] of sorting/sorting.c sorts every array of four elements. *)
Theorem Sorting_sort4_sorts d : length d = 4%nat → Sorting.sort4 d = reference_sort d.
Proof. apply Sorting_sort4_ok. Qed.

Lemma Sorting_sort4_sorts_witness : Sorting.sort4 [4; 3; 1; 2] = [1; 2; 3; 4].
Proof. rewrite (Sorting_sort4_sorts [4; 3; 1; 2]) by reflexivity. vm_compute. reflexivity. Defined.

(** [sort9] of sorting/sorting.c sorts every array of nine elements. *)
Theorem Sorting_sort9_sorts d : length d = 9%nat → Sorting.sort9 d = reference_sort d.
Proof. apply Sorting_sort9_ok. Qed.

Lemma Sorting_sort9_sorts_witness :
  Sorting.sort9 [9; 8; 7; 6; 5; 4; 3; 2; 1] = [1; 2; 3; 4; 5; 6; 7; 8; 9].
Proof.
  rewrite (Sorting_sort9_sorts [9; 8; 7; 6; 5; 4; 3; 2; 1]) by reflexivity.
  vm_compute. reflexivity.
Defined.

(** [sort25] of sorting/sorting.c (five 5-element networks, then insertion)
    sorts every array of 25 elements. *)
Theorem Sorting_sort25_sorts d : length d = 25%nat → Sorting.sort25 d = reference_sort d.
Proof. apply Sorting_sort25_ok. Qed.

Lemma Sorting_sort25_sorts_witness :
  Sorting.sort25 (rev (map Z.of_nat (seq 0 25))) = map Z.of_nat (seq 0 25).
Proof.
  rewrite (Sorting_sort25_sorts (rev (map Z.of_nat (seq 0 25)))) by reflexivity.
  vm_compute. reflexivity.
Defined.

(** The hybrid [sort27] of sorting/sorting.c (nine sort3, three sort9, then
    insertion) sorts every array of 27 elements. *)
Theorem Sorting_sort27_sorts d : length d = 27%nat → Sorting.sort27 d = reference_sort d.
Proof. apply Sorting_sort27_ok. Qed.

Lemma Sorting_sort27_sorts_witness :
  Sorting.sort27 sort27_failing_input = map Z.of_nat (seq 0 27).
Proof.
  rewrite (Sorting_sort27_sorts sort27_failing_input) by reflexivity.
  vm_compute. reflexivity.
Defined.

(** [sort3] of ftools/sorting.c sorts every array of three elements. *)
Theorem Ftools_sort3_sorts d : length d = 3%nat → FtoolsSorting.sort3 d = reference_sort d.
Proof. apply Ftools_sort3_ok. Qed.

Lemma Ftools_sort3_sorts_witness : FtoolsSorting.sort3 [2; 3; 1] = [1; 2; 3].
Proof. rewrite (Ftools_sort3_sorts [2; 3; 1]) by reflexivity. vm_compute. reflexivity. Defined.

(** [sort9] of ftools/sorting.c sorts every array of nine elements. *)
Theorem Ftools_sort9_sorts d : length d = 9%nat → FtoolsSorting.sort9 d = reference_sort d.
Proof. apply Ftools_sort9_ok. Qed.

Lemma Ftools_sort9_sorts_witness :
  FtoolsSorting.sort9 [5; 9; 1; 8; 2; 7; 3; 6; 4] = [1; 2; 3; 4; 5; 6; 7; 8; 9].
Proof.
  rewrite (Ftools_sort9_sorts [5; 9; 1; 8; 2; 7; 3; 6; 4]) by reflexivity.
  vm_compute. reflexivity.
Defined.

(** [sort25] of ftools/sorting.c sorts every array of 25 elements. *)
Theorem Ftools_sort25_sorts d : length d = 25%nat → FtoolsSorting.sort25 d = reference_sort d.
Proof.
  intros Hl. unfold FtoolsSorting.sort25. cbv zeta. rewrite <- Hl.
  apply net_then_insertion. rewrite Hl. vm_compute. done.
Qed.

Lemma Ftools_sort25_sorts_witness :
  FtoolsSorting.sort25 (rev (map Z.of_nat (seq 0 25))) = map Z.of_nat (seq 0 25).
Proof.
  rewrite (Ftools_sort25_sorts (rev (map Z.of_nat (seq 0 25)))) by reflexivity.
  vm_compute. reflexivity.
Defined.

(** [sort27b] of sorting/sorting.c, the straight-line network of 147
    comparators in sixteen stages, sorts every array of 27 elements. *)
Theorem Sorting_sort27b_sorts d : length d = 27%nat → Sorting.sort27b d = reference_sort d.
Proof.
  intros Hl. apply sorted_perm_is_reference.
  - apply sortedb_Sorted, zero_one_principle. intros c. unfold Sorting.sort27b.
    rewrite run_net_fmap by (apply thr_monotone || (rewrite Hl; vm_compute; reflexivity)).
    apply sort27b_sorts01; [by rewrite length_fmap | apply thr_01].
  - apply run_net_perm. rewrite Hl. vm_compute. reflexivity.
Qed.

Lemma Sorting_sort27b_sorts_witness :
  Sorting.sort27b sort27_failing_input = map Z.of_nat (seq 0 27).
Proof.
  rewrite (Sorting_sort27b_sorts sort27_failing_input) by reflexivity.
  vm_compute. reflexivity.
Defined.

(** [insertion_sort(values, count)] sorts the first [count] entries of the
    array ascending and leaves the entries after them untouched; for
    [count <= 1] it changes nothing. *)
Theorem insertion_sort_prefix values count :
  (count ≤ length values)%nat →
  insertion_sort values count = reference_sort (take count values) ++ drop count values.
Proof. apply insertion_sort_take. Qed.

Lemma insertion_sort_prefix_witness :
  insertion_sort [5; 2; 4; 1; 0] 3 = [2; 4; 5; 1; 0].
Proof.
  rewrite (insertion_sort_prefix [5; 2; 4; 1; 0] 3) by (simpl; lia).
  vm_compute. reflexivity.
Defined.

(* ------------------------------------------------------------------ *)
(** ** compute_median and the filter *)

Section FilterExtras.
Import Fmedian FmedianTests.

(** The result of [compute_median(values, count)] depends only on the
    multiset of the first [count] values, not on their order. *)
Theorem compute_median_order_free v v' count :
  (count ≤ length v)%nat → (count ≤ length v')%nat → take count v ≡ₚ take count v' →
  snd (compute_median v count) = snd (compute_median v' count).
Proof.
  intros Hv Hv' Hp. rewrite (compute_median_snd v count Hv), (compute_median_snd v' count Hv').
  by rewrite (perm_reference _ _ Hp).
Qed.

Lemma compute_median_order_free_witness :
  snd (compute_median [3; 1; 2; 9] 3) = snd (compute_median [2; 3; 1; 0] 3).
Proof.
  apply compute_median_order_free; [simpl; lia | simpl; lia |].
  simpl. apply Permutation_sym, (Permutation_cons_append [3; 1] 2).
Defined.

(** For [count > 0], the result of [compute_median(values, count)] lies
    between any lower and upper bound of the first [count] values. *)
Theorem compute_median_within_values values count lo hi :
  (0 < count ≤ length values)%nat → (∀ v, In v (take count values) → lo ≤ v ≤ hi) →
  (inject_Z lo <= snd (compute_median values count) <= inject_Z hi)%Q.
Proof.
  intros Hc Hb. rewrite compute_median_prefix by lia.
  apply median_bounds.
  - intros Ht. apply (f_equal length) in Ht. rewrite length_take in Ht. simpl in Ht. lia.
  - intros v Hv. apply Hb in Hv. rewrite <- !Zle_Qle. lia.
Qed.

Lemma compute_median_within_values_witness :
  (inject_Z 1 <= snd (compute_median [4; 1; 7; 2]%Z 4) <= inject_Z 7)%Q.
Proof.
  apply compute_median_within_values; [simpl; lia|].
  intros v Hv. simpl in Hv. lia.
Defined.







(** When every input value is an int16 and the threshold exceeds 65535 (the
    largest difference of two int16 values), the threshold test never
    rejects: the admitted neighbors of a cell are all the in-bounds values
    of its window, in loop order, so the filter is a plain moving median. *)
Theorem wide_threshold_plain_window g xsize ysize t y x :
  (∀ a, -32768 ≤ g_mem g a ≤ 32767) → (65535 < t)%Q →
  neighbor_list g xsize ysize t y x =
    map (fun '(dy, dx) => cell_value g (y + dy) (x + dx))
      (List.filter (fun '(dy, dx) => in_bounds g (y + dy) (x + dx)) (offsets xsize ysize)).
Proof.
  intros Hg Ht. unfold neighbor_list. f_equal. apply filter_ext. intros [dy dx].
  unfold admissible. destruct (in_bounds g (y + dy) (x + dx)); [simpl|done].
  apply passes_threshold_spec, Qabs_Qlt_condition.
  unfold cell_value. set (v := g_mem g _). set (c := g_mem g _).
  assert (Hv : -32768 ≤ v ≤ 32767) by apply Hg.
  assert (Hc : -32768 ≤ c ≤ 32767) by apply Hg.
  assert (H1 : (inject_Z (-65535) <= inject_Z (v - c))%Q) by (rewrite <- Zle_Qle; lia).
  assert (H2 : (inject_Z (v - c) <= inject_Z 65535)%Q) by (rewrite <- Zle_Qle; lia).
  change (inject_Z (-65535)) with (-65535 # 1)%Q in H1.
  change (inject_Z 65535) with (65535 # 1)%Q in H2. lra.
Qed.

Lemma wide_threshold_plain_window_witness :
  neighbor_list g3 1 1 70000 0 0 = [10; 10; 10; 50].
Proof.
  rewrite (wide_threshold_plain_window g3 1 1 70000 0 0).
  - vm_compute. reflexivity.
  - intros a. simpl. destruct (a =? 8); lia.
  - reflexivity.
Defined.



End FilterExtras.
